(** * a21 -- display8.hpp and debouncer.hpp

    A shallow embedding of the page-display helpers ([Display8]), the
    autoscroll console ([Display8Console]) and the input debouncer
    ([Debouncer]) of the a21 Arduino toolkit, with the properties their
    description states.

    Conventions.  A [uint8_t], [int8_t], [int] or [unsigned long] is a [Z]
    with its conversion written out ([u8], [i8], [to_signed], [to_unsigned]).  A
    [char] is the [Z] of its value, so the terminator is [0] and the space
    character is [32].  The fixed arrays of the console are lists indexed
    with stdpp's lookup and insert.  Calls on the pixel output port are
    recorded as a list of [PortCall]s in the order they are made. *)

From Stdlib Require Import ZArith Lia Bool List.
From stdpp Require Import base tactics option list numbers.

Local Open Scope Z_scope.

(** ** Machine integers *)

(** Conversion to [uint8_t]. *)
Definition u8 (z : Z) : Z := z mod 256.

(** Conversion to [int8_t] (two's complement, as every Arduino target does). *)
Definition i8 (z : Z) : Z := (z + 128) mod 256 - 128.

(** Conversion to an unsigned integer of [bits] bits. *)
Definition to_unsigned (bits z : Z) : Z := z mod 2 ^ bits.

(** Conversion to a signed two's complement integer of [bits] bits. *)
Definition to_signed (bits z : Z) : Z :=
  (z + 2 ^ (bits - 1)) mod 2 ^ bits - 2 ^ (bits - 1).

(** ** debouncer.hpp *)

Module Debouncer.

(** The template parameters [timeout_ms] and [initial_value], and the two
    widths the target fixes: [int] is 16 bits on AVR and 32 bits on the ARM
    boards, [unsigned long] (the type of [millis()]) is 32 bits on both. *)
Class Config := {
  timeout_ms : Z;
  initial_value : bool;
  int_bits : Z;
  long_bits : Z
}.

Record State := {
  _value : bool;       (* the debounced value *)
  _holding : bool;     (* a new value is held till the timeout elapses *)
  _heldValue : bool;   (* the new value being held *)
  _timestamp : Z       (* millis() when the new value was read *)
}.

Section WithConfig.
Context `{Config}.

(** [millis()] at the moment [t] (milliseconds since start-up): the
    counter is an [unsigned long] and wraps. *)
Definition millis (t : Z) : Z := to_unsigned long_bits t.

(** The constructor sets [_value] and [_holding] only; the other two
    members start with whatever the storage holds. *)
Definition init (held0 : bool) (stamp0 : Z) : State :=
  {| _value := initial_value; _holding := false;
     _heldValue := held0; _timestamp := stamp0 |}.

Definition value (s : State) : bool := _value s.

(** [setValue(value)] called at the moment [t]. *)
Definition setValue (v : bool) (t : Z) (s : State) : State :=
  if negb (_holding s) || negb (Bool.eqb v (_heldValue s)) then
    {| _value := _value s; _holding := true;
       _heldValue := v; _timestamp := millis t |}
  else s.

(** [(int)(millis() - _timestamp)] at the moment [t]. *)
Definition elapsed (t : Z) (s : State) : Z :=
  to_signed int_bits (to_unsigned long_bits (millis t - _timestamp s)).

(** [check()] called at the moment [t].  The second component tells
    whether the [valueDidChange()] hook was called. *)
Definition check (t : Z) (s : State) : State * bool :=
  if _holding s && (timeout_ms <=? elapsed t s) then
    let changed := negb (Bool.eqb (_heldValue s) (_value s)) in
    ({| _value := _heldValue s; _holding := false;
        _heldValue := _heldValue s; _timestamp := _timestamp s |},
     changed)
  else (s, false).

(** A call made by the firmware, with the moment it is made at. *)
Inductive Call :=
| CallSetValue (v : bool) (t : Z)
| CallCheck (t : Z).

(** Runs the calls in order; counts the calls of [valueDidChange()]. *)
Fixpoint run (cs : list Call) (s : State) : State * nat :=
  match cs with
  | [] => (s, O)
  | CallSetValue v t :: cs' => run cs' (setValue v t s)
  | CallCheck t :: cs' =>
      let '(s1, fired) := check t s in
      let '(s2, n) := run cs' s1 in
      (s2, ((if fired then 1 else 0) + n)%nat)
  end.

(** The call [c] belongs to a raw signal that holds steady at [v]: it is
    a further sample of [v], or a check. *)
Definition steady (v : bool) (c : Call) : Prop :=
  match c with
  | CallSetValue v' _ => v' = v
  | CallCheck _ => True
  end.

(** A check made sooner than [timeout_ms] after the moment [t0]. *)
Definition early (t0 : Z) (c : Call) : Prop :=
  match c with
  | CallSetValue _ _ => True
  | CallCheck t => 0 <= t - t0 < timeout_ms
  end.

(** The moments of the calls do not go back, starting from [now]. *)
Fixpoint ordered (now : Z) (cs : list Call) : Prop :=
  match cs with
  | [] => True
  | CallSetValue _ t :: cs' => now <= t /\ ordered t cs'
  | CallCheck t :: cs' => now <= t /\ ordered t cs'
  end.

(** Consecutive samples alternate between the two values and are less
    than [timeout_ms] apart; [last] is the latest sample so far. *)
Fixpoint alternating (last : option (bool * Z)) (cs : list Call) : Prop :=
  match cs with
  | [] => True
  | CallSetValue v t :: cs' =>
      match last with
      | Some (v0, t0) => v = negb v0 /\ t - t0 < timeout_ms
      | None => True
      end /\ alternating (Some (v, t)) cs'
  | CallCheck _ :: cs' => alternating last cs'
  end.

(** The same with every call, checks too, less than [timeout_ms] after
    the latest sample: a stretch of an alternation that goes on. *)
Fixpoint rapid (last : option (bool * Z)) (cs : list Call) : Prop :=
  match cs with
  | [] => True
  | CallSetValue v t :: cs' =>
      match last with
      | Some (v0, t0) => v = negb v0 /\ 0 <= t - t0 < timeout_ms
      | None => True
      end /\ rapid (Some (v, t)) cs'
  | CallCheck t :: cs' =>
      match last with
      | Some (_, t0) => 0 <= t - t0 < timeout_ms
      | None => True
      end /\ rapid last cs'
  end.

(** The state after the call [c]. *)
Definition after (c : Call) (s : State) : State :=
  match c with
  | CallSetValue v t => setValue v t s
  | CallCheck t => fst (check t s)
  end.

(** How many of the calls [cs] change what [value()] returns. *)
Fixpoint value_changes (cs : list Call) (s : State) : nat :=
  match cs with
  | [] => O
  | c :: cs' =>
      ((if Bool.eqb (value (after c s)) (value s) then 0 else 1)
       + value_changes cs' (after c s))%nat
  end.

(** A call of [check()]. *)
Definition is_check (c : Call) : Prop :=
  match c with
  | CallSetValue _ _ => False
  | CallCheck _ => True
  end.

(** The state a stretch of a rapid alternation leaves: nothing held
    before the first sample, the latest sample held after it. *)
Definition tracks (last : option (bool * Z)) (s : State) : Prop :=
  match last with
  | None => _holding s = false
  | Some (v0, t0) =>
      _holding s = true /\ _heldValue s = v0 /\ _timestamp s = millis t0
  end.

End WithConfig.

(** A debouncer that holds [true] since the moment [stamp]. *)
Definition holding_true (stamp : Z) : State :=
  {| _value := false; _holding := true; _heldValue := true; _timestamp := stamp |}.

(** The configuration of the description's example on an AVR board. *)
Definition avr10 : Config :=
  {| timeout_ms := 10; initial_value := false; int_bits := 16; long_bits := 32 |}.

(** An AVR board with no timeout. *)
Definition avr0 : Config :=
  {| timeout_ms := 0; initial_value := false; int_bits := 16; long_bits := 32 |}.

(** The same on a board with a 32-bit [int]. *)
Definition arm10 : Config :=
  {| timeout_ms := 10; initial_value := false; int_bits := 32; long_bits := 32 |}.

End Debouncer.

(** ** debouncer.hpp: DebouncedPin *)

Module DebouncedPin.
Import Debouncer.

Section WithConfig.
Context `{Config}.

(** [read()], with [raw] what [pin.read()] returns, [t] the moment of the
    [millis()] of [setValue] and [t'] that of the [millis()] of [check].
    The result is the new state of the debouncer, the value returned and
    whether the hook was called. *)
Definition read (raw : bool) (t t' : Z) (s : State) : State * bool * bool :=
  let s1 := setValue raw t s in
  let '(s2, fired) := check t' s1 in
  (s2, value s2, fired).

End WithConfig.

End DebouncedPin.

(** ** display8.hpp: the page-display helpers *)

Module Display8.

(** The three operations of the pixel output port. *)
Inductive PortCall :=
| beginWritingPage (col page : Z)
| writePageByte (b : Z)
| endWritingPage.

(** [for (uint8_t c = start_col; c <= end_col; c++) writePageByte(...)],
    entered with the counter at [c] for its [k]-th round; [byte k] is the
    byte the [k]-th round sends.  [None] when [fuel] rounds do not reach
    the end of the loop. *)
Fixpoint column_loop (fuel : nat) (byte : nat -> Z) (c end_col : Z) (k : nat)
  : option (list PortCall) :=
  match fuel with
  | O => None
  | S fuel' =>
      if c <=? end_col then
        rest ← column_loop fuel' byte (u8 (c + 1)) end_col (S k);
        Some (writePageByte (byte k) :: rest)
      else Some []
  end.

(** [fillPage(start_col, end_col, page, data)]; [data k] is [data[k]]. *)
Definition fillPage (fuel : nat) (start_col end_col page : Z) (data : nat -> Z)
  : option (list PortCall) :=
  body ← column_loop fuel data start_col end_col O;
  Some (beginWritingPage start_col page :: body ++ [endWritingPage]).

(** [clearPage(start_col, end_col, page, filler)]. *)
Definition clearPage (fuel : nat) (start_col end_col page filler : Z)
  : option (list PortCall) :=
  body ← column_loop fuel (fun _ => filler) start_col end_col O;
  Some (beginWritingPage start_col page :: body ++ [endWritingPage]).

(** The bytes the rounds [k], [k + 1], ... [k + n - 1] send. *)
Definition sends (byte : nat -> Z) (k n : nat) : list PortCall :=
  map (fun j => writePageByte (byte j)) (seq k n).

(** The number of bytes a transfer sends. *)
Fixpoint bytes_sent (calls : list PortCall) : nat :=
  match calls with
  | [] => O
  | writePageByte _ :: rest => S (bytes_sent rest)
  | _ :: rest => bytes_sent rest
  end.

(** Where the bytes go: [beginWritingPage(col, page)] puts the cursor at
    column [col] of [page] and every byte sent lands on the cursor and
    moves it one column on (no clipping).  [cells cur calls] lists the
    (page, column, byte) triples in the order they are written. *)
Fixpoint cells (cur : option (Z * Z)) (calls : list PortCall) : list (Z * Z * Z) :=
  match calls with
  | [] => []
  | beginWritingPage col page :: rest => cells (Some (page, col)) rest
  | writePageByte b :: rest =>
      match cur with
      | Some (page, col) => (page, col, b) :: cells (Some (page, col + 1)) rest
      | None => cells None rest
      end
  | endWritingPage :: rest => cells None rest
  end.

(** The byte a cell holds after the writes [ws], if any of them hit it. *)
Fixpoint last_write (ws : list (Z * Z * Z)) (page col : Z) : option Z :=
  match ws with
  | [] => None
  | (p, c, b) :: rest =>
      match last_write rest page col with
      | Some b' => Some b'
      | None => if (p =? page) && (c =? col) then Some b else None
      end
  end.

(** What the calls leave in the cell at [col] of [page]; [None] when they
    never write it, so that it keeps what it showed before. *)
Definition shown (calls : list PortCall) (page col : Z) : option Z :=
  last_write (cells None calls) page col.

(** [for (uint8_t page = start_page; page <= end_page; page++)
    clearPage(start_col, end_col, page, mask)], entered with the counter at
    [page]; [None] when [rounds] rounds do not reach the end of the loop, or
    when a [clearPage] does not return with [fuel]. *)
Fixpoint page_loop (rounds fuel : nat) (start_col end_col mask page end_page : Z)
  : option (list PortCall) :=
  match rounds with
  | O => None
  | S rounds' =>
      if page <=? end_page then
        out ← clearPage fuel start_col end_col page mask;
        rest ← page_loop rounds' fuel start_col end_col mask (u8 (page + 1)) end_page;
        Some (out ++ rest)
      else Some []
  end.

(** [clear(start_col, start_page, end_col, end_page, mask)]. *)
Definition clear (fuel : nat) (start_col start_page end_col end_page mask : Z)
  : option (list PortCall) :=
  page_loop fuel fuel start_col end_col mask start_page end_page.

(** The cells [n] bytes sent in a row hit, from column [c] of [page] on;
    [byte k] is the first of them. *)
Fixpoint run_cells (page c : Z) (byte : nat -> Z) (k n : nat) : list (Z * Z * Z) :=
  match n with
  | O => []
  | S n' => (page, c, byte k) :: run_cells page (c + 1) byte (S k) n'
  end.

(** The condition of a cell to lie on [page] between two columns. *)
Definition in_run (page first last p c : Z) : bool :=
  (p =? page) && (first <=? c) && (c <=? last).

(** The condition of a cell to lie in the rectangle of [clear]. *)
Definition in_rect (start_col start_page end_col end_page p c : Z) : bool :=
  (start_page <=? p) && (p <=? end_page) && (start_col <=? c) && (c <=? end_col).

(** The port calls of a [clearPage] that returns. *)
Definition clear_transfer (start_col end_col mask page : Z) : list PortCall :=
  beginWritingPage start_col page
    :: sends (fun _ => mask) O (Z.to_nat (end_col + 1 - start_col))
    ++ [endWritingPage].

End Display8.

(** ** display8.hpp: the autoscroll console *)

Module Console.
Import Display8.

(** What the console uses of its [lcd] template parameter.  [drawText col
    page text] stands for [lcd::drawText(font::data(), col, page, text)]:
    the width it returns and the port calls it makes.  [fillPage3 fuel a b
    page] stands for the call [lcd::fillPage(a, b, page)] with three
    arguments, a member of the lcd that display8.hpp does not define
    ([Display8::fillPage] takes four): the port calls it makes, or [None]
    when it does not return within [fuel] rounds of its loops. *)
Class Lcd := {
  Cols : Z;
  Pages : Z;
  drawText : Z -> Z -> list Z -> Z * list PortCall;
  fillPage3 : nat -> Z -> Z -> Z -> option (list PortCall)
}.

(** What it uses of its [font] template parameter: the glyph width
    [Font8::dataForCharacter(font::data(), ch, NULL)] returns. *)
Class Font := {
  dataForCharacter : Z -> Z
}.

Record State := {
  _buffer : list (list Z);
  _row : Z;
  _col : Z;
  _rowWidth : Z;
  _filledRows : Z;
  _dirty : bool
}.

(** The text a [const char *] to the start of [row] denotes: the
    characters before the first terminator. *)
Fixpoint c_str (row : list Z) : list Z :=
  match row with
  | [] => []
  | c :: rest => if c =? 0 then [] else c :: c_str rest
  end.

(** [buffer[r][c] = v].  A store outside the array is undefined in C++;
    here it leaves the array as it is, and [ConsoleFacts.write_stores_in_range]
    shows that no well-formed state makes one. *)
Definition store (buffer : list (list Z)) (r c v : Z) : list (list Z) :=
  alter (insert (Z.to_nat c) v) (Z.to_nat r) buffer.

(** [buffer[r]]. *)
Definition row_at (buffer : list (list Z)) (r : Z) : list Z :=
  default [] (buffer !! Z.to_nat r).

(** The row has its terminator inside the array. *)
Definition terminated (row : list Z) : Prop :=
  (length (c_str row) < length row)%nat.

(** A row of [M] characters with its terminator. *)
Definition shape (M : nat) (row : list Z) : Prop :=
  length row = M /\ terminated row.

Definition set_dirty (d : bool) (s : State) : State :=
  {| _buffer := _buffer s; _row := _row s; _col := _col s;
     _rowWidth := _rowWidth s; _filledRows := _filledRows s; _dirty := d |}.

Section WithLcd.
Context `{Lcd} `{Font}.

(** [MaxCols = lcd::Cols / 4]. *)
Definition MaxCols : Z := Cols / 4.

(** The console is a static object: its storage is zeroed before the
    constructor sets the four counters to 0. *)
Definition init : State :=
  {| _buffer := replicate (Z.to_nat Pages) (replicate (Z.to_nat (MaxCols + 1)) 0);
     _row := 0; _col := 0; _rowWidth := 0; _filledRows := 0; _dirty := false |}.

Definition _lf (s : State) : State :=
  let col := 0 in
  let rowWidth := 0 in
  let row := u8 (_row s + 1) in
  let row := if Pages <=? row then 0 else row in
  let filledRows := u8 (_filledRows s + 1) in
  let filledRows := if Pages <=? filledRows then u8 (filledRows - 1) else filledRows in
  {| _buffer := store (_buffer s) row col 0;
     _row := row; _col := col; _rowWidth := rowWidth;
     _filledRows := filledRows; _dirty := _dirty s |}.

Definition cr (s : State) : State :=
  {| _buffer := _buffer s; _row := _row s; _col := 0; _rowWidth := 0;
     _filledRows := _filledRows s; _dirty := _dirty s |}.

Definition _clear (s : State) : State :=
  {| _buffer := foldl (fun b row => store b row 0 0) (_buffer s) (seqZ 0 Pages);
     _row := 0; _col := 0; _rowWidth := 0; _filledRows := 0; _dirty := true |}.

(** The four statements of [_write] that place a printable character. *)
Definition put (ch width : Z) (s : State) : State :=
  let buffer := store (_buffer s) (_row s) (_col s) ch in
  let col := u8 (_col s + 1) in
  let buffer := store buffer (_row s) col 0 in
  {| _buffer := buffer; _row := _row s; _col := col;
     _rowWidth := u8 (_rowWidth s + (width + 1));
     _filledRows := _filledRows s; _dirty := _dirty s |}.

(** [_write(ch)].  The second component counts the calls of [_lf()]. *)
Definition _write (ch : Z) (s : State) : State * nat :=
  let '(s1, lfs) :=
    if 32 <=? ch then
      let width := u8 (dataForCharacter ch) in
      let '(s0, lfs) :=
        if (MaxCols <=? _col s) || (Cols <=? _rowWidth s + width)
        then (_lf s, 1%nat) else (s, O) in
      (put ch width s0, lfs)
    else if ch =? 10 then (_lf s, 1%nat)
    else if ch =? 13 then (cr s, O)
    else (s, O) in
  (set_dirty true s1, lfs).

Definition write (ch : Z) (s : State) : State := fst (_write ch s).

(** Writes the characters in order; counts the calls of [_lf()]. *)
Fixpoint write_all (chs : list Z) (s : State) : State * nat :=
  match chs with
  | [] => (s, O)
  | ch :: chs' =>
      let '(s1, n1) := _write ch s in
      let '(s2, n2) := write_all chs' s1 in
      (s2, (n1 + n2)%nat)
  end.

(** [row_index] of [_draw] for the display row [i]. *)
Definition row_index (s : State) (i : Z) : Z :=
  let row_index := i8 (_row s - _filledRows s + i) in
  if row_index <? 0 then i8 (row_index + Pages) else row_index.

(** The text [_draw] hands to [drawText] for the display row [i]. *)
Definition row_text (s : State) (i : Z) : list Z :=
  c_str (row_at (_buffer s) (row_index s i)).

(** One round of the loop of [_draw]: the text is drawn, and the lcd's
    three-argument [fillPage] is called with the width, [lcd::Cols - width]
    and the display row. *)
Definition draw_page (fuel : nat) (s : State) (i : Z) : option (list PortCall) :=
  let '(w, text_out) := drawText 0 i (row_text s i) in
  let width := u8 w in
  fill_out ← fillPage3 fuel width (Cols - width) i;
  Some (text_out ++ fill_out).

Fixpoint draw_pages (fuel : nat) (s : State) (pages : list Z) : option (list PortCall) :=
  match pages with
  | [] => Some []
  | i :: rest =>
      out ← draw_page fuel s i;
      outs ← draw_pages fuel s rest;
      Some (out ++ outs)
  end.

(** [_draw()]: [None] when a fill of the lcd does not return within [fuel]
    rounds. *)
Definition _draw (fuel : nat) (s : State) : option (State * list PortCall) :=
  if negb (_dirty s) then Some (s, [])
  else
    out ← draw_pages fuel (set_dirty false s) (seqZ 0 Pages);
    Some (set_dirty false s, out).

(** The shape of the console data: [Pages] rows of [MaxCols + 1]
    characters, each with its terminator, and the counters in range. *)
Definition wf (s : State) : Prop :=
  length (_buffer s) = Z.to_nat Pages /\
  Forall (shape (Z.to_nat (MaxCols + 1))) (_buffer s) /\
  0 <= _row s < Pages /\
  0 <= _col s <= MaxCols /\
  _row s <= _filledRows s <= Pages - 1.

(** The invariant of the console as the description states it: every
    row is a terminated text of at most [MaxCols] characters, the
    counters are in range, and the index [_draw] computes for each
    display row is a row of the buffer. *)
Definition invariant (s : State) : Prop :=
  length (_buffer s) = Z.to_nat Pages /\
  (forall r, 0 <= r < Pages ->
     length (row_at (_buffer s) r) = Z.to_nat (MaxCols + 1) /\
     (length (c_str (row_at (_buffer s) r)) <= Z.to_nat MaxCols)%nat /\
     row_at (_buffer s) r !! length (c_str (row_at (_buffer s) r)) = Some 0) /\
  (_row s < Pages /\ _col s <= MaxCols /\
   _row s <= _filledRows s <= Pages - 1) /\
  (forall i, 0 <= i < Pages -> 0 <= row_index s i <= Pages - 1).

(** A blank byte for every column. *)
Definition blank : nat -> Z := fun _ => 0.

(** Modelled from the spec: the three-argument [lcd::fillPage(col, width,
    page)] that [_draw] calls and that is missing from display8.hpp.  The
    description has [_draw] "fill the remainder of that page (from the
    text's pixel width to Cols) with blank pixels": one transfer that sends
    [width] blank bytes from column [col] of [page] on. *)
Definition fill_blank (col width page : Z) : list PortCall :=
  beginWritingPage col page :: sends blank O (Z.to_nat width) ++ [endWritingPage].

(** Modelled from the spec: the lcd's three-argument fill returns, and
    makes the port calls of [fill_blank]. *)
Definition fills_rest : Prop :=
  forall fuel col width page,
    fillPage3 fuel col width page = Some (fill_blank col width page).

(** Modelled from the spec: [drawText] renders "on a single page" and
    "must not write past Cols".  The text is drawn on the one page it is
    given, with a width that stays within the display. *)
Definition draws_on_its_page : Prop :=
  forall page text,
    0 <= fst (drawText 0 page text) <= Cols /\
    Forall (fun cell => fst (fst cell) = page)
           (cells None (snd (drawText 0 page text))).

(** The port calls of one round of [_draw] on an lcd that fills as the
    description says. *)
Definition page_out (s : State) (i : Z) : list PortCall :=
  snd (drawText 0 i (row_text s i))
  ++ fill_blank (fst (drawText 0 i (row_text s i)))
                (Cols - fst (drawText 0 i (row_text s i))) i.


(** The stores [_lf] and the placing of a character make, in order: the
    row, the column and the character stored. *)
Definition lf_stores (s : State) : list (Z * Z * Z) :=
  [(_row (_lf s), 0, 0)].

Definition put_stores (ch : Z) (s : State) : list (Z * Z * Z) :=
  [(_row s, _col s, ch); (_row s, u8 (_col s + 1), 0)].

(** The stores of [_write(ch)]. *)
Definition write_stores (ch : Z) (s : State) : list (Z * Z * Z) :=
  if 32 <=? ch then
    if (MaxCols <=? _col s) || (Cols <=? _rowWidth s + u8 (dataForCharacter ch))
    then lf_stores s ++ put_stores ch (_lf s)
    else put_stores ch s
  else if ch =? 10 then lf_stores s
  else [].

(** A store that lands inside [_buffer[Pages][MaxCols + 1]]. *)
Definition in_buffer (st : Z * Z * Z) : Prop :=
  0 <= fst (fst st) < Pages /\ 0 <= snd (fst st) <= MaxCols.

(** [lcd::clear()] with all its default arguments: the rectangle from
    (0, 0) to ([Cols - 1], [Pages - 1]) and the mask 0. *)
Definition clear_display (fuel : nat) : option (list PortCall) :=
  clear fuel 0 0 (u8 (Cols - 1)) (u8 (Pages - 1)) 0.

(** The states the public calls lead to. *)
Inductive reachable : State -> Prop :=
| reach_init : reachable init
| reach_write s ch : reachable s -> reachable (write ch s)
| reach_clear s : reachable s -> reachable (_clear s)
| reach_draw s fuel s' out :
    reachable s -> _draw fuel s = Some (s', out) -> reachable s'.

End WithLcd.

End Console.

(** ** The console as the description words it: a terminal that scrolls *)

(** A second model, written from the description and not from the code, to
    compare [Console] with: a terminal that keeps every row ever started
    (the newest first) and shows the most recent [Pages] of them.  A line
    feed starts a new empty row; a character cuts the current row at the
    cursor and is appended there. *)
Module Scrollback.
Import Console.

Record Term := {
  rows : list (list Z);   (* the current row, then the older ones *)
  col : Z;
  rowWidth : Z
}.

Section WithLcd.
Context `{Lcd} `{Font}.

Definition init : Term := {| rows := [[]]; col := 0; rowWidth := 0 |}.

Definition lf (t : Term) : Term :=
  {| rows := [] :: rows t; col := 0; rowWidth := 0 |}.

Definition cr (t : Term) : Term :=
  {| rows := rows t; col := 0; rowWidth := 0 |}.

Definition put (ch width : Z) (t : Term) : Term :=
  {| rows := (take (Z.to_nat (col t)) (hd [] (rows t)) ++ [ch]) :: tl (rows t);
     col := col t + 1;
     rowWidth := u8 (rowWidth t + (width + 1)) |}.

Definition write (ch : Z) (t : Term) : Term :=
  if 32 <=? ch then
    let width := u8 (dataForCharacter ch) in
    if (MaxCols <? col t + 1) || (Cols <? rowWidth t + (width + 1))
    then put ch width (lf t) else put ch width t
  else if ch =? 10 then lf t
  else if ch =? 13 then cr t
  else t.

Definition write_all (chs : list Z) (t : Term) : Term :=
  foldl (fun t ch => write ch t) t chs.

(** The console [s] holds the terminal [t]: the same cursor; the
    [_filledRows + 1] rows behind the current one, going back round
    the buffer, are the newest rows of the terminal; and while the
    buffer is not full the rows after the current one are empty. *)
Definition sim (s : State) (t : Term) : Prop :=
  col t = _col s /\ rowWidth t = _rowWidth s /\
  _filledRows s = Z.min (Z.of_nat (length (rows t)) - 1) (Pages - 1) /\
  (forall k, 0 <= k <= _filledRows s ->
     rows t !! Z.to_nat k
     = Some (c_str (row_at (_buffer s) ((_row s - k) mod Pages)))) /\
  (_filledRows s < Pages - 1 ->
     _row s = _filledRows s /\
     forall j, _filledRows s < j < Pages -> c_str (row_at (_buffer s) j) = []) /\
  (Z.to_nat (_col s) <= length (c_str (row_at (_buffer s) (_row s))))%nat.

(** What the terminal shows, top row first: the most recent [Pages] rows
    in the order they were started, and empty rows below them while
    fewer than [Pages] rows exist. *)
Definition visible (t : Term) : list (list Z) :=
  reverse (take (Z.to_nat Pages) (rows t))
  ++ replicate (Z.to_nat Pages - length (rows t)) [].

End WithLcd.

End Scrollback.

(** ** Two displays to run the console on *)

Module Boards.
Import Display8 Console.

(** A font whose glyphs are all [w] pixels wide. *)
Definition fixed_font (w : Z) : Font := {| dataForCharacter := fun _ => w |}.

(** A 128x64 display ([Cols = 128], [Pages = 8]) that draws every
    character as three lit columns and a blank one, stops at the last
    column, and fills as the description says. *)
Definition block_text (col page : Z) (text : list Z) : Z * list PortCall :=
  let w := Z.min (4 * Z.of_nat (length text)) (128 - col) in
  (w, beginWritingPage col page
        :: take (Z.to_nat w)
                (flat_map (fun _ => map writePageByte [255; 255; 255; 0]) text)
        ++ [endWritingPage]).

Definition lcd128x64 : Lcd :=
  {| Cols := 128; Pages := 8; drawText := block_text;
     fillPage3 := fun _ col width page => Some (fill_blank col width page) |}.

Definition font3 : Font := fixed_font 3.

(** Ten lines ["A"] to ["J"], each ended by a line feed: the display
    shows ["D"] to ["J"] and the empty current row. *)
Definition ten_lines : list Z :=
  flat_map (fun c => [c; 10]) [65; 66; 67; 68; 69; 70; 71; 72; 73; 74].

End Boards.

(** * Properties *)

(** ** The debouncer *)

Module DebouncerFacts.
Import Debouncer.

Section WithConfig.
Context `{Config}.

(** [int] is no wider than [unsigned long]. *)
Hypothesis widths : 0 < int_bits <= long_bits.

Lemma pow_int_bits : 2 ^ int_bits = 2 * 2 ^ (int_bits - 1).
Proof using widths.
  replace int_bits with (Z.succ (int_bits - 1)) at 1 by lia.
  apply Z.pow_succ_r. lia.
Qed.

Lemma pow_int_long : 2 ^ (int_bits - 1) < 2 ^ long_bits.
Proof using widths. apply Z.pow_lt_mono_r; lia. Qed.

(** While the time since the sample fits an [int], [check] sees it as
    it is. *)
Lemma elapsed_since (t0 t : Z) (s : State) :
  _timestamp s = millis t0 ->
  0 <= t - t0 < 2 ^ (int_bits - 1) ->
  elapsed t s = t - t0.
Proof using widths.
  intros Hts Hd. unfold elapsed, millis, to_signed, to_unsigned in *.
  rewrite Hts, <- Zminus_mod.
  pose proof pow_int_long. pose proof pow_int_bits as Hp.
  rewrite (Z.mod_small (t - t0)) by lia.
  rewrite Hp, Z.mod_small; lia.
Qed.

Lemma run_app (cs1 cs2 : list Call) (s : State) :
  run (cs1 ++ cs2) s =
  let '(s1, n1) := run cs1 s in
  let '(s2, n2) := run cs2 s1 in (s2, (n1 + n2)%nat).
Proof.
  revert s. induction cs1 as [|[v t|t] cs1 IH]; intros s; simpl.
  - destruct (run cs2 s); reflexivity.
  - apply IH.
  - destruct (check t s) as [s1 fired]. rewrite IH.
    destruct (run cs1 s1) as [s2 n]. destruct (run cs2 s2) as [s3 m].
    f_equal. lia.
Qed.

(** A sample equal to the value being held is dropped. *)
Lemma setValue_held (v : bool) (t : Z) (s : State) :
  _holding s = true -> v = _heldValue s -> setValue v t s = s.
Proof.
  intros Hh ->. unfold setValue. rewrite Hh, Bool.eqb_reflx. reflexivity.
Qed.

(** Any other sample starts the hold anew. *)
Lemma setValue_restart (v : bool) (t : Z) (s : State) :
  _holding s = false \/ _heldValue s <> v ->
  setValue v t s =
  {| _value := _value s; _holding := true; _heldValue := v; _timestamp := millis t |}.
Proof.
  intros Hc. unfold setValue.
  destruct (_holding s) eqn:Hh; simpl; [|reflexivity].
  destruct Hc as [Hc|Hc]; [discriminate|].
  destruct (Bool.eqb v (_heldValue s)) eqn:He; [|reflexivity].
  apply Bool.eqb_prop in He. congruence.
Qed.

Lemma check_early (t0 t : Z) (s : State) :
  _timestamp s = millis t0 ->
  0 <= t - t0 < timeout_ms -> timeout_ms <= 2 ^ (int_bits - 1) ->
  check t s = (s, false).
Proof using widths.
  intros Hts Hd Hfit. unfold check.
  rewrite (elapsed_since t0) by (try assumption; lia).
  destruct (Z.leb_spec timeout_ms (t - t0)); [lia|].
  rewrite andb_false_r. reflexivity.
Qed.

Lemma check_due (t0 t : Z) (s : State) :
  _holding s = true -> _timestamp s = millis t0 ->
  timeout_ms <= t - t0 < 2 ^ (int_bits - 1) -> 0 <= t - t0 ->
  check t s =
  ({| _value := _heldValue s; _holding := false;
      _heldValue := _heldValue s; _timestamp := _timestamp s |},
   negb (Bool.eqb (_heldValue s) (_value s))).
Proof using widths.
  intros Hh Hts Hd H0. unfold check.
  rewrite (elapsed_since t0) by (try assumption; lia).
  destruct (Z.leb_spec timeout_ms (t - t0)); [|lia].
  rewrite Hh. reflexivity.
Qed.

Lemma check_idle (t : Z) (s : State) :
  _holding s = false -> check t s = (s, false).
Proof. intros Hh. unfold check. rewrite Hh. reflexivity. Qed.

(** While the signal holds steady and no check comes late enough, the
    state stays as the first sample left it. *)
Lemma run_early (v : bool) (t0 : Z) (cs : list Call) (s : State) :
  timeout_ms <= 2 ^ (int_bits - 1) ->
  _holding s = true -> _heldValue s = v -> _timestamp s = millis t0 ->
  Forall (steady v) cs -> Forall (early t0) cs ->
  run cs s = (s, O).
Proof using widths.
  intros Hfit Hh Hv Hts Hst Hea.
  induction cs as [|[v' t|t] cs IH]; simpl; [reflexivity| |].
  - inversion Hst; inversion Hea; subst. simpl in *. subst v'.
    rewrite setValue_held by auto. auto.
  - inversion Hst; inversion Hea; subst. simpl in *.
    rewrite (check_early t0) by auto. rewrite IH by auto. reflexivity.
Qed.

(** Once the value is [v], a signal steady at [v] never changes it
    again, whenever it is checked. *)
Lemma run_settled (v : bool) (cs : list Call) (s : State) :
  _value s = v -> (_holding s = true -> _heldValue s = v) ->
  Forall (steady v) cs ->
  _value (fst (run cs s)) = v /\ snd (run cs s) = O.
Proof.
  intros Hv Hh Hst. revert s Hv Hh.
  induction cs as [|[v' t|t] cs IH]; intros s Hv Hh; simpl; [auto| |].
  - inversion Hst; subst. simpl in *. apply IH; [assumption| |].
    + unfold setValue. destruct (negb (_holding s) || _); simpl; auto.
    + unfold setValue. destruct (negb (_holding s) || _); simpl; auto.
  - inversion Hst; subst.
    unfold check. destruct (_holding s && _) eqn:Hc.
    + apply andb_prop in Hc as [Hc _]. specialize (Hh Hc).
      rewrite Hh, Bool.eqb_reflx. simpl.
      match goal with |- context [run cs ?s1] =>
        destruct (IH ltac:(assumption) s1) as [IH1 IH2]; simpl; auto;
        destruct (run cs s1) end.
      simpl in *. auto.
    + destruct (IH ltac:(assumption) s) as [IH1 IH2]; auto.
      destruct (run cs s). simpl in *. auto.
Qed.

Lemma run_rapid (last : option (bool * Z)) (cs : list Call) (s : State) :
  timeout_ms <= 2 ^ (int_bits - 1) ->
  tracks last s -> rapid last cs ->
  _value (fst (run cs s)) = _value s /\ snd (run cs s) = O.
Proof using widths.
  intros Hfit. revert last s.
  induction cs as [|[v t|t] cs IH]; intros last s Htr Hr; simpl; [auto| |].
  - destruct Hr as [Hlast Hr].
    assert (Hre : _holding s = false \/ _heldValue s <> v).
    { destruct last as [[v0 t0]|]; simpl in Htr; [|auto].
      destruct Hlast as [-> _]. destruct Htr as (_ & -> & _).
      right. destruct v0; discriminate. }
    rewrite (setValue_restart v t s Hre).
    match goal with |- context [run cs ?s1] =>
      destruct (IH (Some (v, t)) s1) as [IH1 IH2]; simpl; auto end.
  - destruct Hr as [Hlast Hr].
    assert (Hck : check t s = (s, false)).
    { destruct last as [[v0 t0]|]; simpl in Htr.
      - destruct Htr as (_ & _ & Hts). apply (check_early t0); auto.
      - apply check_idle; assumption. }
    rewrite Hck. destruct (IH last s Htr Hr) as [IH1 IH2].
    destruct (run cs s). simpl in *. auto.
Qed.

Lemma rapid_prefix (last : option (bool * Z)) (p k : list Call) :
  rapid last (p ++ k) -> rapid last p.
Proof.
  revert last. induction p as [|[v t|t] p IH]; intros last; simpl; [auto| |];
    intros [H1 H2]; split; eauto.
Qed.

(** Before the next sample of an alternation, less than [timeout_ms]
    has passed since the latest one. *)
Lemma next_sample_bound (now : Z) (v0 : bool) (t0 : Z) (cs : list Call) (v : bool) (t : Z) :
  ordered now (cs ++ [CallSetValue v t]) ->
  alternating (Some (v0, t0)) (cs ++ [CallSetValue v t]) ->
  now - t0 < timeout_ms.
Proof.
  revert now. induction cs as [|[v1 t1|t1] cs IH]; intros now; simpl.
  - intros [Ho _] [[_ Ha] _]. lia.
  - intros [Ho _] [[_ Ha] _]. lia.
  - intros [Ho Ho'] Ha. specialize (IH t1 Ho' Ha). lia.
Qed.

(** In an interleaving that ends with a sample, every check falls
    between two samples, so less than [timeout_ms] after the earlier. *)
Lemma interleaved_rapid (now : Z) (last : option (bool * Z)) (cs : list Call) (v : bool) (t : Z) :
  (forall v0 t0, last = Some (v0, t0) -> t0 <= now) ->
  ordered now (cs ++ [CallSetValue v t]) ->
  alternating last (cs ++ [CallSetValue v t]) ->
  rapid last (cs ++ [CallSetValue v t]).
Proof.
  revert now last. induction cs as [|[v1 t1|t1] cs IH]; intros now last Hlast; simpl.
  - intros [Ho _] [Ha _]. split; [|exact I].
    destruct last as [[v0 t0]|]; [|exact I].
    specialize (Hlast v0 t0 eq_refl). destruct Ha. split; [assumption|lia].
  - intros [Ho Ho'] [Ha Ha']. split.
    + destruct last as [[v0 t0]|]; [|exact I].
      specialize (Hlast v0 t0 eq_refl). destruct Ha. split; [assumption|lia].
    + apply (IH t1); [|assumption..]. intros ? ? [= _ <-]. lia.
  - intros [Ho Ho'] Ha. split.
    + destruct last as [[v0 t0]|]; [|exact I].
      specialize (Hlast v0 t0 eq_refl).
      pose proof (next_sample_bound t1 v0 t0 cs v t Ho' Ha). lia.
    + apply (IH t1); [|assumption..].
      intros v0 t0 E. specialize (Hlast v0 t0 E). lia.
Qed.

(** C5 (amended).  Let a sample [v] at the moment [t0] start a hold, and
    the raw signal then hold steady at [v].  As long as every check comes
    sooner than [timeout_ms] after [t0], [value()] stays the old value
    and the hook is not called.  A check at a moment [t] with
    [timeout_ms <= t - t0 < 2 ^ (int_bits - 1)] makes [value()] the new
    value and calls the hook once if the value changed; whatever checks
    and samples of [v] follow, [value()] stays [v] and the hook is not
    called again. *)
Theorem value_settles_after_timeout
    (s : State) (v : bool) (t0 t : Z) (before after : list Call) :
  _holding s = false \/ _heldValue s <> v ->
  Forall (steady v) before -> Forall (early t0) before ->
  t0 <= t -> timeout_ms <= t - t0 < 2 ^ (int_bits - 1) ->
  Forall (steady v) after ->
  let s0 := setValue v t0 s in
  let fires := if Bool.eqb v (value s) then O else 1%nat in
  (value (fst (run before s0)) = value s /\ snd (run before s0) = O) /\
  (value (fst (run (before ++ [CallCheck t]) s0)) = v /\
   snd (run (before ++ [CallCheck t]) s0) = fires) /\
  (value (fst (run (before ++ CallCheck t :: after) s0)) = v /\
   snd (run (before ++ CallCheck t :: after) s0) = fires).
Proof using widths.
  intros Hre Hst Hea Hle Hdue Hst' s0 fires.
  assert (Hs0 : s0 = {| _value := _value s; _holding := true;
                        _heldValue := v; _timestamp := millis t0 |})
    by (apply setValue_restart; assumption).
  assert (Hrun : run before s0 = (s0, O)).
  { apply (run_early v t0); rewrite ?Hs0; simpl; auto. lia. }
  assert (Hck : check t s0 =
                ({| _value := v; _holding := false; _heldValue := v;
                    _timestamp := millis t0 |},
                 negb (Bool.eqb v (_value s)))).
  { rewrite (check_due t0 t s0); rewrite ?Hs0; simpl; auto; lia. }
  assert (Hfires : ((if negb (Bool.eqb v (_value s)) then 1 else 0) + 0)%nat = fires).
  { unfold fires, value. destruct (Bool.eqb v (_value s)); reflexivity. }
  split; [|split].
  - rewrite Hrun. simpl. rewrite Hs0. auto.
  - rewrite run_app, Hrun. simpl. rewrite Hck. simpl. auto.
  - rewrite run_app, Hrun. simpl. rewrite Hck.
    match goal with |- context [run after ?s1] =>
      destruct (run_settled v after s1) as [R1 R2]; simpl; auto;
      destruct (run after s1) as [s2 n] end.
    simpl in *. subst n. auto.
Qed.


(** The same for an interleaving whose moments do not go back, taken up
    to a sample of it: every check of it lies between two samples. *)
Corollary rapid_alternation_never_changes
    (s : State) (now : Z) (cs : list Call) (v : bool) (t : Z) (p : list Call) :
  timeout_ms < 2 ^ (int_bits - 1) ->
  _holding s = false ->
  ordered now (cs ++ [CallSetValue v t]) ->
  alternating None (cs ++ [CallSetValue v t]) ->
  p `prefix_of` cs ++ [CallSetValue v t] ->
  value (fst (run p s)) = value s /\ snd (run p s) = O.
Proof using widths.
  intros Hfit Hh Ho Ha [k Hk].
  apply (run_rapid None); [lia|exact Hh|].
  apply (rapid_prefix None p k). rewrite <- Hk.
  apply (interleaved_rapid now); [discriminate|assumption..].
Qed.

(** C8.  While a value is held, a sample equal to it changes nothing:
    not the debounced value, not the holding flag, not the held value,
    and not the timestamp, so the timeout is not started anew. *)
Theorem setValue_same_as_held_changes_nothing (v : bool) (t : Z) (s : State) :
  _holding s = true -> v = _heldValue s ->
  _value (setValue v t s) = _value s /\
  _holding (setValue v t s) = _holding s /\
  _heldValue (setValue v t s) = _heldValue s /\
  _timestamp (setValue v t s) = _timestamp s.
Proof.
  intros Hh Hv. rewrite setValue_held by assumption. auto.
Qed.

End WithConfig.

Lemma avr10_widths : 0 < @int_bits avr10 <= @long_bits avr10.
Proof. cbn. lia. Qed.

Lemma arm10_widths : 0 < @int_bits arm10 <= @long_bits arm10.
Proof. cbn. lia. Qed.

(** The example of the description: [timeout_ms = 10], initial value
    [false]; [setValue(true)] at 0, [check()] at 5, [check()] at 11. *)
Lemma value_settles_after_timeout_example :
  let s0 := @setValue avr10 true 0 (@init avr10 false 0) in
  (value (fst (@run avr10 [CallCheck 5] s0)) = false /\
   snd (@run avr10 [CallCheck 5] s0) = O) /\
  (value (fst (@run avr10 [CallCheck 5; CallCheck 11] s0)) = true /\
   snd (@run avr10 [CallCheck 5; CallCheck 11] s0) = 1%nat) /\
  (value (fst (@run avr10 [CallCheck 5; CallCheck 11; CallCheck 12;
                           CallSetValue true 20; CallCheck 40] s0)) = true /\
   snd (@run avr10 [CallCheck 5; CallCheck 11; CallCheck 12;
                    CallSetValue true 20; CallCheck 40] s0) = 1%nat).
Proof.
  apply (@value_settles_after_timeout avr10 avr10_widths (@init avr10 false 0)
           true 0 11 [CallCheck 5]
           [CallCheck 12; CallSetValue true 20; CallCheck 40]).
  - left. reflexivity.
  - repeat constructor.
  - repeat constructor; cbn; lia.
  - lia.
  - cbn. lia.
  - repeat constructor.
Defined.

(** The claim C5 as it is worded fails where the time since the sample no
    longer fits an [int]: a first check 32768 ms after the sample (16-bit
    [int]), or 2147483648 ms after it (32-bit [int]), comes later than the
    10 ms of the timeout and still leaves the old value. *)
Lemma late_check_keeps_old_value :
  (@timeout_ms avr10 <= 32768 - 0 /\
   value (fst (@check avr10 32768
                 (@setValue avr10 true 0 (@init avr10 false 0)))) = false) /\
  (@timeout_ms arm10 <= 2147483648 - 0 /\
   value (fst (@check arm10 2147483648
                 (@setValue arm10 true 0 (@init arm10 false 0)))) = false).
Proof.
  repeat split; try (cbn; lia); vm_compute; reflexivity.
Qed.



(** The same contact, with the interleaving taken up to the sample at
    13 ms. *)
Lemma rapid_alternation_never_changes_example :
  let cs := [CallSetValue true 0; CallCheck 3; CallSetValue false 4;
             CallCheck 8; CallSetValue true 9; CallCheck 12] in
  value (fst (@run avr10 cs (@init avr10 false 0))) = value (@init avr10 false 0) /\
  snd (@run avr10 cs (@init avr10 false 0)) = O.
Proof.
  apply (@rapid_alternation_never_changes avr10 avr10_widths (@init avr10 false 0) 0
           [CallSetValue true 0; CallCheck 3; CallSetValue false 4;
            CallCheck 8; CallSetValue true 9; CallCheck 12]
           false 13).
  - cbn. lia.
  - reflexivity.
  - cbn. lia.
  - cbn. repeat split; lia.
  - exists [CallSetValue false 13]. reflexivity.
Defined.

Lemma setValue_same_as_held_changes_nothing_example :
  let s := {| _value := false; _holding := true; _heldValue := true; _timestamp := 7 |} in
  _value (@setValue avr10 true 9 s) = false /\
  _holding (@setValue avr10 true 9 s) = true /\
  _heldValue (@setValue avr10 true 9 s) = true /\
  _timestamp (@setValue avr10 true 9 s) = 7.
Proof.
  apply (@setValue_same_as_held_changes_nothing avr10 true 9
           {| _value := false; _holding := true; _heldValue := true; _timestamp := 7 |});
    reflexivity.
Defined.

End DebouncerFacts.

(** ** The page-display helpers *)

Module Display8Facts.
Import Display8.

Lemma bytes_sent_sends (byte : nat -> Z) (k n : nat) :
  bytes_sent (sends byte k n) = n.
Proof.
  unfold sends. revert k. induction n as [|n IH]; intros k; simpl; [reflexivity|].
  f_equal. apply IH.
Qed.

Lemma bytes_sent_app (xs ys : list PortCall) :
  bytes_sent (xs ++ ys) = (bytes_sent xs + bytes_sent ys)%nat.
Proof.
  induction xs as [|[c p|b|] xs IH]; simpl; auto.
Qed.

(** Below 255 the counter reaches [end_col + 1] without wrapping. *)
Lemma column_loop_done (n fuel : nat) (byte : nat -> Z) (c end_col : Z) (k : nat) :
  0 <= c -> end_col < 255 -> n = Z.to_nat (end_col + 1 - c) -> (n < fuel)%nat ->
  column_loop fuel byte c end_col k = Some (sends byte k n).
Proof.
  revert fuel c k. induction n as [|n IH]; intros fuel c k Hc He Hn Hf.
  - destruct fuel as [|fuel]; [lia|]. simpl.
    destruct (Z.leb_spec c end_col); [lia|]. reflexivity.
  - destruct fuel as [|fuel]; [lia|]. simpl.
    destruct (Z.leb_spec c end_col); [|lia].
    assert (Hu : u8 (c + 1) = c + 1) by (unfold u8; apply Z.mod_small; lia).
    rewrite Hu, (IH fuel (c + 1) (S k)) by lia. reflexivity.
Qed.

(** With [end_col = 255] the test [c <= end_col] holds for every value of
    the counter, which wraps from 255 to 0. *)
Lemma column_loop_255 (fuel : nat) (byte : nat -> Z) (c : Z) (k : nat) :
  0 <= c <= 255 -> column_loop fuel byte c 255 k = None.
Proof.
  revert c k. induction fuel as [|fuel IH]; intros c k Hc; simpl; [reflexivity|].
  destruct (Z.leb_spec c 255); [|lia].
  rewrite IH; [reflexivity|]. unfold u8. pose proof (Z.mod_pos_bound (c + 1) 256). lia.
Qed.

Lemma fillPage_done (fuel : nat) (start_col end_col page : Z) (data : nat -> Z) :
  0 <= start_col -> end_col < 255 -> (256 < fuel)%nat ->
  fillPage fuel start_col end_col page data =
  Some (beginWritingPage start_col page
          :: sends data O (Z.to_nat (end_col + 1 - start_col)) ++ [endWritingPage]).
Proof.
  intros Hs He Hf. unfold fillPage.
  rewrite (column_loop_done (Z.to_nat (end_col + 1 - start_col))) by lia.
  reflexivity.
Qed.

Lemma clearPage_done (fuel : nat) (start_col end_col page filler : Z) :
  0 <= start_col -> end_col < 255 -> (256 < fuel)%nat ->
  clearPage fuel start_col end_col page filler =
  Some (beginWritingPage start_col page
          :: sends (fun _ => filler) O (Z.to_nat (end_col + 1 - start_col))
          ++ [endWritingPage]).
Proof.
  intros Hs He Hf. unfold clearPage.
  rewrite (column_loop_done (Z.to_nat (end_col + 1 - start_col))) by lia.
  reflexivity.
Qed.

(** C10.  For columns that are [uint8_t] values: with [end_col < 255],
    [fillPage] and [clearPage] return, having sent
    [end_col - start_col + 1] bytes between the begin and the end of the
    transfer when [start_col <= end_col] and none when
    [start_col > end_col]; with [end_col = 255] the column loop of neither
    comes to its end, however many rounds it is given. *)
Theorem page_loops_end_unless_end_col_255
    (start_col end_col page filler : Z) (data : nat -> Z) :
  0 <= start_col <= 255 -> 0 <= end_col <= 255 ->
  let n := if start_col <=? end_col then Z.to_nat (end_col - start_col + 1) else O in
  (end_col < 255 ->
   forall fuel, (256 < fuel)%nat ->
     fillPage fuel start_col end_col page data =
       Some (beginWritingPage start_col page :: sends data O n ++ [endWritingPage]) /\
     clearPage fuel start_col end_col page filler =
       Some (beginWritingPage start_col page
               :: sends (fun _ => filler) O n ++ [endWritingPage]) /\
     bytes_sent (beginWritingPage start_col page :: sends data O n ++ [endWritingPage]) = n /\
     bytes_sent (beginWritingPage start_col page
                   :: sends (fun _ => filler) O n ++ [endWritingPage]) = n) /\
  (end_col = 255 ->
   forall fuel,
     fillPage fuel start_col end_col page data = None /\
     clearPage fuel start_col end_col page filler = None).
Proof.
  intros Hs He n. split.
  - intros Hlt fuel Hf.
    assert (Hn : n = Z.to_nat (end_col + 1 - start_col)).
    { unfold n. destruct (Z.leb_spec start_col end_col); lia. }
    rewrite Hn, fillPage_done, clearPage_done by lia.
    repeat split; simpl; rewrite bytes_sent_app, bytes_sent_sends; simpl; lia.
  - intros -> fuel. unfold fillPage, clearPage.
    rewrite !column_loop_255 by lia. split; reflexivity.
Qed.

Lemma page_loops_end_unless_end_col_255_example :
  (forall fuel, (256 < fuel)%nat ->
     fillPage fuel 3 5 2 (fun k => Z.of_nat k + 7) =
       Some [beginWritingPage 3 2; writePageByte 7; writePageByte 8;
             writePageByte 9; endWritingPage]) /\
  (forall fuel, clearPage fuel 3 255 2 0 = None).
Proof.
  split.
  - intros fuel Hf.
    apply (page_loops_end_unless_end_col_255 3 5 2 0 (fun k => Z.of_nat k + 7));
      [lia | lia | lia | exact Hf].
  - intros fuel.
    apply (page_loops_end_unless_end_col_255 3 255 2 0 (fun k => Z.of_nat k + 7));
      [lia | lia | reflexivity].
Defined.

End Display8Facts.

(** ** The console *)

Module ConsoleFacts.
Import Display8 Console.

Lemma u8_small (x : Z) : 0 <= x < 256 -> u8 x = x.
Proof. intros. unfold u8. apply Z.mod_small. assumption. Qed.

Lemma i8_small (x : Z) : -128 <= x < 128 -> i8 x = x.
Proof. intros. unfold i8. rewrite Z.mod_small; lia. Qed.

(** *** Texts in row buffers *)

Lemma c_str_length (row : list Z) : (length (c_str row) <= length row)%nat.
Proof.
  induction row as [|c row IH]; simpl; [lia|].
  destruct (c =? 0); simpl; lia.
Qed.

Lemma c_str_zero_at (row : list Z) (j : nat) :
  row !! j = Some 0 -> (length (c_str row) <= j)%nat.
Proof.
  revert j. induction row as [|c row IH]; intros [|j]; simpl; try discriminate.
  - intros [= ->]. simpl. lia.
  - intros Hj. destruct (c =? 0); simpl; [lia|]. specialize (IH j Hj). lia.
Qed.

Lemma c_str_terminator (row : list Z) :
  terminated row -> row !! length (c_str row) = Some 0.
Proof.
  unfold terminated. induction row as [|c row IH]; simpl; [lia|].
  destruct (Z.eqb_spec c 0) as [->|Hc]; simpl; [reflexivity|].
  intros Hlt. apply IH. lia.
Qed.

Lemma c_str_insert_0 (row : list Z) : c_str (<[O := 0]> row) = [].
Proof. destruct row; reflexivity. Qed.

Lemma terminated_insert_zero (row : list Z) (j : nat) :
  (j < length row)%nat -> terminated (<[j := 0]> row).
Proof.
  intros Hj. unfold terminated. rewrite length_insert.
  pose proof (c_str_zero_at (<[j := 0]> row) j) as Hz.
  rewrite list_lookup_insert_eq in Hz by assumption.
  specialize (Hz eq_refl). lia.
Qed.

(** *** Stores *)

Lemma store_length (b : list (list Z)) (r c v : Z) :
  length (store b r c v) = length b.
Proof. apply length_alter. Qed.

Lemma row_at_store_same (b : list (list Z)) (r c v : Z) :
  (Z.to_nat r < length b)%nat ->
  row_at (store b r c v) r = <[Z.to_nat c := v]> (row_at b r).
Proof.
  intros Hr. unfold row_at, store. rewrite list_lookup_alter_eq.
  apply lookup_lt_is_Some in Hr as [row ->]. reflexivity.
Qed.

Lemma row_at_store_other (b : list (list Z)) (r r' c v : Z) :
  Z.to_nat r <> Z.to_nat r' -> row_at (store b r c v) r' = row_at b r'.
Proof.
  intros Hr. unfold row_at, store. rewrite list_lookup_alter_ne by assumption.
  reflexivity.
Qed.

Section Shape.
Variable M : nat.

Lemma store_zero_shape (b : list (list Z)) (r c : Z) :
  (Z.to_nat c < M)%nat -> Forall (shape M) b -> Forall (shape M) (store b r c 0).
Proof.
  intros Hc Hb. unfold store. apply Forall_alter; [assumption|].
  intros row _ [Hlen _]. split.
  - rewrite length_insert. assumption.
  - apply terminated_insert_zero. lia.
Qed.

Lemma store_store_zero_shape (b : list (list Z)) (r c c' ch : Z) :
  (Z.to_nat c' < M)%nat -> Forall (shape M) b ->
  Forall (shape M) (store (store b r c ch) r c' 0).
Proof.
  intros Hc Hb. unfold store. rewrite Forall_lookup in Hb.
  apply Forall_lookup_2. intros i row.
  destruct (decide (Z.to_nat r = i)) as [<-|Hne].
  - rewrite !list_lookup_alter_eq.
    destruct (b !! Z.to_nat r) as [row0|] eqn:E; [|discriminate].
    intros [= <-]. destruct (Hb _ _ E) as [Hlen _]. split.
    + rewrite !length_insert. assumption.
    + apply terminated_insert_zero. rewrite length_insert. lia.
  - rewrite !list_lookup_alter_ne by assumption. apply Hb.
Qed.
End Shape.

Section WithLcd.
Context `{Lcd} `{Font}.

(** The display has room for a character ([MaxCols >= 1]), its sizes are
    [uint8_t], and the [int8_t] index of [_draw] can hold its page count
    (a display has [Rows = 8 * Pages] in a [uint8_t], so at most 31
    pages). *)
Hypothesis Cols_range : 4 <= Cols <= 255.
Hypothesis Pages_range : 0 < Pages <= 128.

Lemma Pages_pos : 0 < Pages.
Proof. lia. Qed.

Lemma MaxCols_range : 1 <= MaxCols <= 63.
Proof.
  unfold MaxCols.
  pose proof (Z.div_mod Cols 4 ltac:(lia)).
  pose proof (Z.mod_pos_bound Cols 4 ltac:(lia)). lia.
Qed.

Lemma wf_set_dirty (d : bool) (s : State) : wf s -> wf (set_dirty d s).
Proof. unfold wf. simpl. auto. Qed.

Lemma init_wf : wf init.
Proof.
  pose proof MaxCols_range. unfold wf, init. simpl.
  rewrite length_replicate. repeat split; try lia.
  apply Forall_replicate. split.
  - apply length_replicate.
  - unfold terminated. rewrite length_replicate.
    replace (Z.to_nat (MaxCols + 1)) with (S (Z.to_nat MaxCols)) by lia.
    simpl. lia.
Qed.

(** What [_lf] leaves in each member. *)
Lemma lf_fields (s : State) :
  0 <= _row s < Pages -> 0 <= _filledRows s <= Pages - 1 ->
  _col (_lf s) = 0 /\ _rowWidth (_lf s) = 0 /\
  _row (_lf s) = (_row s + 1) mod Pages /\
  _filledRows (_lf s) = Z.min (_filledRows s + 1) (Pages - 1) /\
  _buffer (_lf s) = store (_buffer s) ((_row s + 1) mod Pages) 0 0 /\
  _dirty (_lf s) = _dirty s.
Proof.
  intros Hr Hf.
  assert (Hrow : (if Pages <=? u8 (_row s + 1) then 0 else u8 (_row s + 1))
                 = (_row s + 1) mod Pages).
  { rewrite u8_small by lia. destruct (Z.leb_spec Pages (_row s + 1)).
    - replace (_row s + 1) with Pages by lia. symmetry. apply Z_mod_same_full.
    - symmetry. apply Z.mod_small. lia. }
  unfold _lf. simpl. rewrite Hrow. repeat split.
  rewrite (u8_small (_filledRows s + 1)) by lia.
  destruct (Z.leb_spec Pages (_filledRows s + 1)).
  - rewrite u8_small by lia. lia.
  - lia.
Qed.

Lemma lf_wf (s : State) : wf s -> wf (_lf s).
Proof.
  intros (Hlen & Hrows & Hr & Hc & Hf).
  pose proof MaxCols_range.
  pose proof (lf_fields s ltac:(lia) ltac:(lia)) as (Ec & _ & Er & Ef & Eb & _).
  pose proof (Z.mod_pos_bound (_row s + 1) Pages Pages_pos) as Hm.
  unfold wf. rewrite Ec, Er, Ef, Eb, store_length. repeat split; try lia.
  - apply store_zero_shape; [lia|assumption].
  - destruct (Z.leb_spec Pages (_row s + 1 + 1)).
    + lia.
    + rewrite Z.mod_small by lia. lia.
Qed.

Lemma cr_wf (s : State) : wf s -> wf (cr s).
Proof.
  pose proof MaxCols_range. unfold wf, cr. simpl. intuition lia.
Qed.

Lemma clear_buffer_shape (rows : list Z) (b : list (list Z)) :
  Forall (shape (Z.to_nat (MaxCols + 1))) b ->
  Forall (shape (Z.to_nat (MaxCols + 1)))
         (foldl (fun b row => store b row 0 0) b rows) /\
  length (foldl (fun b row => store b row 0 0) b rows) = length b.
Proof.
  pose proof MaxCols_range.
  revert b. induction rows as [|r rows IH]; intros b Hb; simpl; [auto|].
  destruct (IH (store b r 0 0)) as [IH1 IH2].
  - apply store_zero_shape; [lia|assumption].
  - split; [assumption|]. rewrite IH2. apply store_length.
Qed.

Lemma clear_wf (s : State) : wf s -> wf (_clear s).
Proof.
  intros (Hlen & Hrows & _).
  pose proof MaxCols_range.
  destruct (clear_buffer_shape (seqZ 0 Pages) (_buffer s) Hrows) as [C1 C2].
  unfold wf, _clear. simpl. rewrite C2. repeat split; try assumption; lia.
Qed.

Lemma put_wf (ch width : Z) (s : State) :
  wf s -> _col s < MaxCols -> wf (put ch width s).
Proof.
  intros (Hlen & Hrows & Hr & Hc & Hf) Hlt.
  pose proof MaxCols_range.
  unfold wf, put. simpl. rewrite (u8_small (_col s + 1)) by lia.
  rewrite !store_length. repeat split; try lia.
  apply store_store_zero_shape; [lia|assumption].
Qed.

(** The state [_write] places a printable character in has room for it. *)
Lemma write_stores_in_range (ch : Z) (s : State) :
  wf s ->
  let s0 := if (MaxCols <=? _col s) || (Cols <=? _rowWidth s + u8 (dataForCharacter ch))
            then _lf s else s in
  wf s0 /\ 0 <= _col s0 /\ _col s0 + 1 < MaxCols + 1 /\ 0 <= _row s0 < Pages.
Proof.
  intros Hwf s0. pose proof MaxCols_range.
  assert (Hs0 : wf s0 /\ _col s0 < MaxCols).
  { unfold s0. destruct (Z.leb_spec MaxCols (_col s)); simpl.
    - split; [apply lf_wf; assumption|]. unfold _lf. simpl. lia.
    - destruct (Cols <=? _); [|auto].
      split; [apply lf_wf; assumption|]. unfold _lf. simpl. lia. }
  destruct Hs0 as [Hwf0 Hc0]. pose proof Hwf0 as (_ & _ & ? & ? & _).
  split; [assumption|]. lia.
Qed.

Lemma write_wf (ch : Z) (s : State) : wf s -> wf (write ch s).
Proof.
  intros Hwf. unfold write, _write.
  destruct (32 <=? ch).
  - pose proof (write_stores_in_range ch s Hwf) as (Hwf0 & _ & Hc0 & _).
    destruct (_ || _); simpl; apply wf_set_dirty, put_wf; auto; lia.
  - destruct (ch =? 10); [|destruct (ch =? 13)]; simpl; apply wf_set_dirty;
      auto using lf_wf, cr_wf.
Qed.

Lemma draw_state (fuel : nat) (s s' : State) (out : list PortCall) :
  _draw fuel s = Some (s', out) -> s' = set_dirty false s.
Proof.
  unfold _draw. destruct (_dirty s) eqn:Hd; simpl.
  - destruct (draw_pages _ _ _); simpl; [|discriminate]. intros [= <- _]. reflexivity.
  - intros [= <- _]. destruct s; simpl in *; subst; reflexivity.
Qed.

Lemma reachable_wf (s : State) : reachable s -> wf s.
Proof.
  induction 1 as [|s ch _ IH|s _ IH|s fuel s' out _ IH Hd].
  - apply init_wf.
  - apply write_wf, IH.
  - apply clear_wf, IH.
  - apply draw_state in Hd as ->. apply wf_set_dirty, IH.
Qed.

(** In a well-formed state the index [_draw] computes is the one the
    description gives, and a row of the buffer. *)
Lemma row_index_mod (s : State) (i : Z) :
  wf s -> 0 <= i < Pages ->
  row_index s i = (_row s - _filledRows s + i) mod Pages /\
  0 <= row_index s i <= Pages - 1.
Proof.
  intros (_ & _ & Hr & _ & Hf) Hi.
  pose proof (Z.mod_pos_bound (_row s - _filledRows s + i) Pages Pages_pos) as Hm.
  assert (E : row_index s i = (_row s - _filledRows s + i) mod Pages); [|lia].
  unfold row_index. rewrite (i8_small (_row s - _filledRows s + i)) by lia.
  destruct (Z.ltb_spec (_row s - _filledRows s + i) 0).
  - rewrite i8_small by lia.
    rewrite <- (Z.mod_add _ 1 Pages) by lia.
    rewrite Z.mul_1_l. symmetry. apply Z.mod_small. lia.
  - symmetry. apply Z.mod_small. lia.
Qed.

Lemma wf_row (s : State) (r : Z) :
  wf s -> 0 <= r < Pages ->
  exists row, _buffer s !! Z.to_nat r = Some row /\
              row_at (_buffer s) r = row /\
              shape (Z.to_nat (MaxCols + 1)) row.
Proof.
  intros (Hlen & Hrows & _) Hr.
  destruct (lookup_lt_is_Some_2 (_buffer s) (Z.to_nat r)) as [row Hrow]; [lia|].
  exists row. split; [assumption|]. split.
  - unfold row_at. rewrite Hrow. reflexivity.
  - exact (Forall_lookup_1 _ _ _ _ Hrows Hrow).
Qed.

Lemma wf_invariant (s : State) : wf s -> invariant s.
Proof.
  intros Hwf. pose proof Hwf as (Hlen & Hrows & Hr & Hc & Hf).
  pose proof MaxCols_range.
  unfold invariant. split; [assumption|]. split; [|split; [lia|]].
  - intros r Hrange.
    destruct (wf_row s r Hwf Hrange) as (row & _ & -> & Hl & Ht).
    split; [assumption|]. split.
    + unfold terminated in Ht. lia.
    + apply c_str_terminator. assumption.
  - intros i Hi. apply row_index_mod; assumption.
Qed.

(** C9.  In every state that [write], [clear] and [draw] calls lead to
    from the initial one: each of the [Pages] rows is [MaxCols + 1]
    characters long, its text has at most [MaxCols] characters and is
    followed by a terminator inside the row; [_row < Pages],
    [_col <= MaxCols] and [_row <= _filledRows <= Pages - 1]; and for
    every display row [i] the index [_draw] computes, with its one
    conditional [+ Pages], lies in [0, Pages - 1]. *)
Theorem reachable_states_keep_invariant (s : State) :
  reachable s -> invariant s.
Proof.
  intros Hs. apply wf_invariant, reachable_wf, Hs.
Qed.

(** C4.  In a well-formed state, a line feed sets the column and the
    row width to 0, moves the row index on by one modulo [Pages], adds
    one to the count of filled rows unless that would pass
    [Pages - 1], where it stays, and leaves the new current row with a
    terminator at position 0, the empty text. *)
Theorem line_feed_effect (s : State) :
  wf s ->
  _col (_lf s) = 0 /\ _rowWidth (_lf s) = 0 /\
  _row (_lf s) = (_row s + 1) mod Pages /\
  _filledRows (_lf s) = Z.min (_filledRows s + 1) (Pages - 1) /\
  _filledRows (_lf s) <= Pages - 1 /\
  row_at (_buffer (_lf s)) (_row (_lf s)) !! O = Some 0 /\
  c_str (row_at (_buffer (_lf s)) (_row (_lf s))) = [].
Proof.
  intros Hwf. pose proof Hwf as (Hlen & Hrows & Hr & Hc & Hf).
  pose proof MaxCols_range.
  pose proof (lf_fields s ltac:(lia) ltac:(lia)) as (Ec & Ew & Er & Ef & Eb & _).
  pose proof (Z.mod_pos_bound (_row s + 1) Pages Pages_pos) as Hm.
  rewrite Ec, Ew, Er, Ef, Eb. repeat split; try lia.
  - destruct (wf_row s ((_row s + 1) mod Pages) Hwf Hm) as (row & Hrow & Erow & Hl & _).
    rewrite row_at_store_same by lia. rewrite Erow.
    apply list_lookup_insert_eq. lia.
  - rewrite row_at_store_same by lia. apply c_str_insert_0.
Qed.

(** C7 (amended).  A control character other than ['\n'] and ['\r']
    leaves the row buffers, the row index, the column index, the row
    width and the count of filled rows as they are, calls no line feed,
    and sets the dirty flag. *)
Theorem write_control_sets_dirty_only (s : State) (ch : Z) :
  ch < 32 -> ch <> 10 -> ch <> 13 ->
  _buffer (write ch s) = _buffer s /\ _row (write ch s) = _row s /\
  _col (write ch s) = _col s /\ _rowWidth (write ch s) = _rowWidth s /\
  _filledRows (write ch s) = _filledRows s /\
  _dirty (write ch s) = true /\ snd (_write ch s) = O.
Proof.
  intros Hc Hn Hr. unfold write, _write.
  destruct (Z.leb_spec 32 ch); [lia|].
  destruct (Z.eqb_spec ch 10); [lia|].
  destruct (Z.eqb_spec ch 13); [lia|].
  simpl. auto 10.
Qed.

(** What [_write] does with a printable character. *)
Lemma write_printable (s : State) (ch : Z) :
  32 <= ch ->
  let width := u8 (dataForCharacter ch) in
  let full := MaxCols < _col s + 1 \/ Cols < _rowWidth s + width + 1 in
  (full -> _write ch s = (set_dirty true (put ch width (_lf s)), 1%nat)) /\
  (~ full -> _write ch s = (set_dirty true (put ch width s), O)) /\
  (snd (_write ch s) = 1%nat <-> full).
Proof.
  intros Hch width full.
  assert (Hcond : (MaxCols <=? _col s) || (Cols <=? _rowWidth s + width) = true <-> full).
  { unfold full. rewrite orb_true_iff, !Z.leb_le. lia. }
  unfold _write. fold width.
  destruct (Z.leb_spec 32 ch); [|lia].
  destruct ((MaxCols <=? _col s) || (Cols <=? _rowWidth s + width)); simpl.
  - split; [reflexivity|]. split; [intros Hn; exfalso; apply Hn, Hcond; reflexivity|].
    split; [intros _; apply Hcond; reflexivity|reflexivity].
  - split; [intros Hf; apply Hcond in Hf; discriminate|]. split; [reflexivity|].
    split; [discriminate|]. intros Hf. apply Hcond in Hf. discriminate.
Qed.

End WithLcd.

(** *** On the 128x64 display with glyphs 3 pixels wide *)

Import Boards.

Lemma lcd128x64_Cols : 4 <= @Cols lcd128x64 <= 255.
Proof. cbn. lia. Qed.

Lemma lcd128x64_Pages : 0 < @Pages lcd128x64 <= 128.
Proof. cbn. lia. Qed.

Lemma reachable_states_keep_invariant_example :
  @invariant lcd128x64 (@write lcd128x64 font3 65 (@init lcd128x64)).
Proof.
  apply (@reachable_states_keep_invariant lcd128x64 font3
           lcd128x64_Cols lcd128x64_Pages).
  apply reach_write, reach_init.
Defined.

Lemma line_feed_effect_example :
  let s := @_lf lcd128x64 (@write lcd128x64 font3 65 (@init lcd128x64)) in
  _col s = 0 /\ _rowWidth s = 0 /\ _row s = (0 + 1) mod 8 /\
  _filledRows s = Z.min (0 + 1) (8 - 1) /\ _filledRows s <= 8 - 1 /\
  row_at (_buffer s) (_row s) !! O = Some 0 /\
  c_str (row_at (_buffer s) (_row s)) = [].
Proof.
  apply (@line_feed_effect lcd128x64 lcd128x64_Cols lcd128x64_Pages
           (@write lcd128x64 font3 65 (@init lcd128x64))).
  apply write_wf; [exact lcd128x64_Cols|exact lcd128x64_Pages|].
  apply init_wf; [exact lcd128x64_Cols|exact lcd128x64_Pages].
Defined.

Lemma write_control_sets_dirty_only_example :
  let s := @init lcd128x64 in
  _buffer (@write lcd128x64 font3 9 s) = _buffer s /\
  _row (@write lcd128x64 font3 9 s) = _row s /\
  _col (@write lcd128x64 font3 9 s) = _col s /\
  _rowWidth (@write lcd128x64 font3 9 s) = _rowWidth s /\
  _filledRows (@write lcd128x64 font3 9 s) = _filledRows s /\
  _dirty (@write lcd128x64 font3 9 s) = true /\
  snd (@_write lcd128x64 font3 9 s) = O.
Proof.
  apply (@write_control_sets_dirty_only lcd128x64 font3 (@init lcd128x64) 9); lia.
Defined.

(** The claim C7 as it is worded fails on the dirty flag: a tab written
    to a console that has nothing to flush leaves it dirty. *)
Lemma write_control_changes_dirty_flag :
  9 < 32 /\ 9 <> 10 /\ 9 <> 13 /\
  _dirty (@init lcd128x64) = false /\
  _dirty (@write lcd128x64 font3 9 (@init lcd128x64)) = true /\
  @write lcd128x64 font3 9 (@init lcd128x64) <> @init lcd128x64.
Proof.
  repeat split; try lia. intros E. apply (f_equal _dirty) in E. discriminate E.
Qed.

(** C3.  For a printable character, [_write] calls [_lf] once, before it
    places the character on the new row, when one more character would
    exceed [MaxCols] characters on the current row or would take the
    accumulated row width past [Cols] pixels, and does not call it
    otherwise.  With [Cols = 128], [Pages = 8], [MaxCols = 32] and glyphs
    3 pixels wide, 40 characters go 32 on the first row, then one line
    feed, and 8 on the next row. *)
Theorem printable_write_feeds_line_once_iff_row_full :
  (forall (lcd : Lcd) (font : Font) (s : State) (ch : Z),
     32 <= ch ->
     let width := u8 (dataForCharacter ch) in
     let full := MaxCols < _col s + 1 \/ Cols < _rowWidth s + width + 1 in
     (full -> _write ch s = (set_dirty true (put ch width (_lf s)), 1%nat)) /\
     (~ full -> _write ch s = (set_dirty true (put ch width s), O)) /\
     (snd (_write ch s) = 1%nat <-> full)) /\
  (@MaxCols lcd128x64 = 32 /\
   let s32 := fst (@write_all lcd128x64 font3 (replicate 32 65) (@init lcd128x64)) in
   let s33 := fst (@write_all lcd128x64 font3 (replicate 33 65) (@init lcd128x64)) in
   let s40 := fst (@write_all lcd128x64 font3 (replicate 40 65) (@init lcd128x64)) in
   snd (@write_all lcd128x64 font3 (replicate 32 65) (@init lcd128x64)) = O /\
   _row s32 = 0 /\ c_str (row_at (_buffer s32) 0) = replicate 32 65 /\
   snd (@_write lcd128x64 font3 65 s32) = 1%nat /\
   _row s33 = 1 /\ c_str (row_at (_buffer s33) 1) = [65] /\
   snd (@write_all lcd128x64 font3 (replicate 40 65) (@init lcd128x64)) = 1%nat /\
   _row s40 = 1 /\
   c_str (row_at (_buffer s40) 0) = replicate 32 65 /\
   c_str (row_at (_buffer s40) 1) = replicate 8 65).
Proof.
  split.
  - intros lcd font s ch Hch. apply write_printable. assumption.
  - vm_compute. repeat split; reflexivity.
Qed.

Lemma printable_write_feeds_line_once_iff_row_full_example :
  let s := fst (@write_all lcd128x64 font3 (replicate 32 65) (@init lcd128x64)) in
  snd (@_write lcd128x64 font3 65 s) = 1%nat <->
  (@MaxCols lcd128x64 < _col s + 1 \/ @Cols lcd128x64 < _rowWidth s + u8 3 + 1).
Proof.
  apply (proj1 printable_write_feeds_line_once_iff_row_full lcd128x64 font3
           (fst (@write_all lcd128x64 font3 (replicate 32 65) (@init lcd128x64))) 65).
  lia.
Defined.

End ConsoleFacts.

(** ** The console against the scrolling terminal *)

Module ScrollFacts.
Import Display8 Console ConsoleFacts.

Lemma c_str_replicate_0 (n : nat) : c_str (replicate n 0) = [].
Proof. destruct n; reflexivity. Qed.

(** Placing a character at the cursor cuts the text there. *)
Lemma c_str_put (row : list Z) (n : nat) (ch : Z) :
  (n <= length (c_str row))%nat -> ch <> 0 -> (S n < length row)%nat ->
  c_str (<[S n := 0]> (<[n := ch]> row)) = take n (c_str row) ++ [ch].
Proof.
  revert row. induction n as [|n IH]; intros row Hn Hch Hlen.
  - destruct row as [|c [|c' rest]]; simpl in *; try lia.
    destruct (Z.eqb_spec ch 0); [contradiction|]. reflexivity.
  - destruct row as [|c rest]; simpl in *; [lia|].
    destruct (Z.eqb_spec c 0); simpl in *; [lia|].
    f_equal. apply IH; [lia|assumption|lia].
Qed.

Lemma mod_sub_cases (P r k : Z) :
  0 <= r < P -> 0 <= k < P ->
  (r - k) mod P = if r - k <? 0 then r - k + P else r - k.
Proof.
  intros Hr Hk. destruct (Z.ltb_spec (r - k) 0).
  - rewrite <- (Z.mod_add _ 1 P) by lia. rewrite Z.mul_1_l. apply Z.mod_small. lia.
  - apply Z.mod_small. lia.
Qed.

Section WithLcd.
Context `{Lcd} `{Font}.

Hypothesis Cols_range : 4 <= Cols <= 255.
Hypothesis Pages_range : 0 < Pages <= 128.

Import Scrollback.

Lemma row_at_zeroed (n m : nat) (j : Z) :
  c_str (row_at (replicate n (replicate m 0)) j) = [].
Proof.
  unfold row_at. destruct (replicate n (replicate m 0) !! Z.to_nat j) eqn:E; simpl.
  - apply lookup_replicate_1 in E as [-> _]. apply c_str_replicate_0.
  - reflexivity.
Qed.

Lemma sim_init : sim Console.init Scrollback.init.
Proof.
  unfold sim, Console.init, Scrollback.init. simpl.
  split; [reflexivity|]. split; [reflexivity|]. split; [lia|].
  split; [|split].
  - intros k Hk. replace k with 0 by lia. simpl.
    rewrite row_at_zeroed. reflexivity.
  - intros _. split; [reflexivity|]. intros j _. apply row_at_zeroed.
  - lia.
Qed.

Lemma sim_set_dirty (d : bool) (s : State) (t : Term) :
  sim s t -> sim (set_dirty d s) t.
Proof. unfold sim. simpl. auto. Qed.

Lemma sim_rows (s : State) (t : Term) :
  wf s -> sim s t ->
  exists older, rows t = c_str (row_at (_buffer s) (_row s)) :: older.
Proof.
  intros (_ & _ & Hr & _ & Hf) (_ & _ & _ & Hk & _).
  specialize (Hk 0 ltac:(lia)). rewrite Z.sub_0_r, Z.mod_small in Hk by lia.
  destruct (rows t) as [|x older]; [discriminate|].
  injection Hk as ->. eauto.
Qed.

Lemma sim_cr (s : State) (t : Term) : sim s t -> sim (Console.cr s) (Scrollback.cr t).
Proof.
  intros (Hc & Hw & Hf & Hk & Hj & Hcol). unfold sim, Console.cr, Scrollback.cr.
  simpl. repeat split; auto; try apply Hj; try assumption. lia.
Qed.

Lemma sim_lf (s : State) (t : Term) :
  wf s -> sim s t -> sim (_lf s) (Scrollback.lf t).
Proof.
  intros Hwf (Hc & Hw & Hf & Hk & Hj & Hcol).
  pose proof Hwf as (Hlen & Hrows & Hr & Hcr & Hfr).
  pose proof (lf_fields Pages_range s ltac:(lia) ltac:(lia)) as (Ec & Ew & Er & Ef & Eb & _).
  pose proof (Z.mod_pos_bound (_row s + 1) Pages (Pages_pos Pages_range)) as Hm.
  unfold sim. rewrite Ec, Ew, Er, Ef, Eb. simpl.
  split; [reflexivity|]. split; [reflexivity|]. split; [lia|]. split; [|split].
  - intros k Hk'. destruct (Z.eq_dec k 0) as [->|Hk0].
    + simpl. rewrite Z.sub_0_r, Z.mod_mod by lia.
      rewrite row_at_store_same by lia. rewrite c_str_insert_0. reflexivity.
    + replace (Z.to_nat k) with (S (Z.to_nat (k - 1))) by lia. simpl.
      rewrite (Hk (k - 1)) by lia. do 2 f_equal.
      assert (E : ((_row s + 1) mod Pages - k) mod Pages
                  = (_row s - (k - 1)) mod Pages).
      { rewrite Zminus_mod_idemp_l. f_equal. lia. }
      rewrite <- E. symmetry. apply row_at_store_other.
      rewrite (mod_sub_cases Pages ((_row s + 1) mod Pages) k) by lia.
      destruct (Z.ltb_spec ((_row s + 1) mod Pages - k) 0); lia.
  - intros Hlt. assert (Hf' : _filledRows s < Pages - 1) by lia.
    destruct (Hj Hf') as [Hrow Hrest].
    assert (Em : (_row s + 1) mod Pages = _filledRows s + 1)
      by (rewrite Hrow; apply Z.mod_small; lia).
    split; [lia|]. intros j Hjr.
    rewrite row_at_store_other by lia. apply Hrest. lia.
  - lia.
Qed.

Lemma sim_put (ch width : Z) (s : State) (t : Term) :
  wf s -> sim s t -> _col s < MaxCols -> ch <> 0 ->
  sim (Console.put ch width s) (Scrollback.put ch width t).
Proof.
  intros Hwf Hsim Hlt Hch.
  destruct (sim_rows s t Hwf Hsim) as [older Erows].
  destruct Hsim as (Hc & Hw & Hf & Hk & Hj & Hcol).
  pose proof Hwf as (Hlen & Hrows & Hr & Hcr & Hfr).
  pose proof (MaxCols_range Cols_range) as HM.
  destruct (wf_row Pages_range s (_row s) Hwf Hr) as (row & _ & Erow & Hl & _).
  set (b' := store (store (_buffer s) (_row s) (_col s) ch) (_row s) (_col s + 1) 0).
  assert (Enew : c_str (row_at b' (_row s))
                 = take (Z.to_nat (_col s)) (c_str row) ++ [ch]).
  { unfold b'. rewrite !row_at_store_same by (rewrite ?store_length; lia).
    rewrite Erow. replace (Z.to_nat (_col s + 1)) with (S (Z.to_nat (_col s))) by lia.
    apply c_str_put; [rewrite <- Erow; assumption|assumption|lia]. }
  assert (Eother : forall j, 0 <= j -> j <> _row s -> row_at b' j = row_at (_buffer s) j).
  { intros j Hj0 Hne. unfold b'. rewrite !row_at_store_other by lia. reflexivity. }
  unfold sim, Console.put, Scrollback.put. rewrite Erows in *. simpl.
  rewrite !(u8_small (_col s + 1)) by lia. fold b'.
  split; [lia|]. split; [rewrite Hw; reflexivity|].
  split; [simpl in Hf; lia|]. split; [|split].
  - intros k Hk'. destruct (Z.eq_dec k 0) as [->|Hk0].
    + simpl. rewrite Z.sub_0_r, (Z.mod_small (_row s)) by lia.
      rewrite Enew, Hc, Erow. reflexivity.
    + specialize (Hk k Hk').
      replace (Z.to_nat k) with (S (Z.to_nat (k - 1))) in * by lia. simpl in *.
      rewrite Hk. do 2 f_equal. symmetry.
      pose proof (Z.mod_pos_bound (_row s - k) Pages (Pages_pos Pages_range)).
      apply Eother; [lia|].
      rewrite (mod_sub_cases Pages (_row s) k) by lia.
      destruct (Z.ltb_spec (_row s - k) 0); lia.
  - intros Hlt'. destruct (Hj Hlt') as [Hrow Hrest]. split; [assumption|].
    intros j Hjr. rewrite Eother by lia. apply Hrest. assumption.
  - rewrite Enew, length_app, length_take. simpl. rewrite Erow in Hcol. lia.
Qed.

Lemma sim_write (ch : Z) (s : State) (t : Term) :
  wf s -> sim s t ->
  sim (Console.write ch s) (Scrollback.write ch t) /\
  length (rows (Scrollback.write ch t))
  = (length (rows t) + snd (_write ch s))%nat.
Proof.
  intros Hwf Hsim.
  destruct (sim_rows s t Hwf Hsim) as [older Erows].
  pose proof Hsim as (Hc & Hw & _).
  pose proof Hwf as (_ & _ & _ & Hcr & _).
  pose proof (MaxCols_range Cols_range) as HM.
  unfold Console.write, _write, Scrollback.write.
  destruct (Z.leb_spec 32 ch) as [Hch|Hch].
  - set (width := u8 (dataForCharacter ch)).
    assert (Econd : (MaxCols <? col t + 1) || (Cols <? rowWidth t + (width + 1))
                    = (MaxCols <=? _col s) || (Cols <=? _rowWidth s + width)).
    { rewrite Hc, Hw. f_equal.
      - destruct (Z.ltb_spec MaxCols (_col s + 1)), (Z.leb_spec MaxCols (_col s));
          try reflexivity; lia.
      - destruct (Z.ltb_spec Cols (_rowWidth s + (width + 1))),
                 (Z.leb_spec Cols (_rowWidth s + width)); try reflexivity; lia. }
    rewrite Econd.
    destruct ((MaxCols <=? _col s) || (Cols <=? _rowWidth s + width)) eqn:Efull; simpl.
    + split.
      * apply sim_set_dirty, sim_put;
          [apply (lf_wf Cols_range Pages_range)|apply sim_lf|unfold _lf; simpl|];
          auto; lia.
      * unfold Scrollback.put, Scrollback.lf. simpl. lia.
    + apply orb_false_elim in Efull as [Ecol _]. apply Z.leb_gt in Ecol.
      split.
      * apply sim_set_dirty, sim_put; auto; lia.
      * unfold Scrollback.put. rewrite Erows. simpl. lia.
  - destruct (ch =? 10); [|destruct (ch =? 13)]; simpl.
    + split; [apply sim_set_dirty, sim_lf; assumption|lia].
    + split; [apply sim_set_dirty, sim_cr; assumption|lia].
    + split; [apply sim_set_dirty; assumption|lia].
Qed.

Lemma sim_write_all (chs : list Z) (s : State) (t : Term) :
  wf s -> sim s t ->
  wf (fst (Console.write_all chs s)) /\
  sim (fst (Console.write_all chs s)) (Scrollback.write_all chs t) /\
  length (rows (Scrollback.write_all chs t))
  = (length (rows t) + snd (Console.write_all chs s))%nat.
Proof.
  revert s t. induction chs as [|ch chs IH]; intros s t Hwf Hsim.
  - simpl. split; [assumption|]. split; [assumption|lia].
  - change (Scrollback.write_all (ch :: chs) t)
      with (Scrollback.write_all chs (Scrollback.write ch t)).
    simpl.
    destruct (sim_write ch s t Hwf Hsim) as [Hsim1 Hlen1].
    pose proof (write_wf Cols_range Pages_range ch s Hwf) as Hwf1.
    unfold Console.write in *.
    destruct (_write ch s) as [s1 n1]. simpl in *.
    destruct (IH s1 (Scrollback.write ch t) Hwf1 Hsim1) as (IH1 & IH2 & IH3).
    destruct (Console.write_all chs s1) as [s2 n2]. simpl in *.
    split; [assumption|]. split; [assumption|].
    rewrite IH3, Hlen1. lia.
Qed.

(** The texts [_draw] hands to [drawText], top display row first, are
    what the terminal shows. *)
Lemma sim_visible (s : State) (t : Term) :
  wf s -> sim s t -> map (row_text s) (seqZ 0 Pages) = visible t.
Proof.
  intros Hwf Hsim.
  pose proof Hsim as (_ & _ & Hf & Hk & Hj & _).
  pose proof Hwf as (_ & _ & Hr & _ & Hfr).
  destruct (sim_rows s t Hwf Hsim) as [older Erows].
  assert (Hlen : length (rows t) = S (length older)) by (rewrite Erows; reflexivity).
  assert (Htake : length (take (Z.to_nat Pages) (rows t)) = S (Z.to_nat (_filledRows s))).
  { rewrite length_take. lia. }
  apply (list_eq_same_length _ _ (Z.to_nat Pages)).
  - unfold visible. rewrite length_app, length_reverse, length_replicate. lia.
  - rewrite length_map, length_seqZ. reflexivity.
  - intros i x y Hi Hx Hy.
    rewrite list_lookup_fmap, lookup_seqZ_lt in Hx by lia.
    injection Hx as <-. rewrite Z.add_0_l.
    destruct (row_index_mod Pages_range s (Z.of_nat i) Hwf ltac:(lia)) as [Eidx _].
    unfold row_text. rewrite Eidx. unfold visible in Hy.
    destruct (decide (i <= Z.to_nat (_filledRows s))%nat) as [Hle|Hgt].
    + rewrite lookup_app_l in Hy by (rewrite length_reverse; lia).
      rewrite reverse_lookup, Htake in Hy by lia.
      rewrite lookup_take_lt in Hy by lia.
      specialize (Hk (_filledRows s - Z.of_nat i) ltac:(lia)).
      replace (Z.to_nat (_filledRows s - Z.of_nat i))
        with (S (Z.to_nat (_filledRows s)) - S i)%nat in Hk by lia.
      rewrite Hk in Hy. injection Hy as <-. do 3 f_equal. lia.
    + rewrite lookup_app_r in Hy by (rewrite length_reverse; lia).
      apply lookup_replicate_1 in Hy as [-> _].
      destruct (Hj ltac:(lia)) as [Hrow Hrest].
      rewrite Hrow. replace (_filledRows s - _filledRows s + Z.of_nat i)
        with (Z.of_nat i) by lia.
      rewrite Z.mod_small by lia. apply Hrest. lia.
Qed.

End WithLcd.

End ScrollFacts.

(** ** Drawing *)

Module DrawFacts.
Import Display8 Display8Facts Console ConsoleFacts ScrollFacts.

Section WithLcd.
Context `{Lcd} `{Font}.

Hypothesis Cols_range : 4 <= Cols <= 255.
Hypothesis Pages_range : 0 < Pages <= 128.



(** *** The rows after [clear()] *)

Lemma store_blank_row (b : list (list Z)) (r i : Z) :
  Z.to_nat r = Z.to_nat i \/ c_str (row_at b i) = [] ->
  c_str (row_at (store b r 0 0) i) = [].
Proof.
  intros Hcase. unfold row_at, store in *. rewrite list_lookup_alter.
  destruct (decide (Z.to_nat r = Z.to_nat i)) as [E|Hne].
  - destruct (b !! Z.to_nat r); simpl; [apply c_str_insert_0|reflexivity].
  - destruct Hcase; [contradiction|assumption].
Qed.

Lemma clear_loop_blank_rows (rows : list Z) (b : list (list Z)) (i : Z) :
  i ∈ rows \/ c_str (row_at b i) = [] ->
  c_str (row_at (foldl (fun b row => store b row 0 0) b rows) i) = [].
Proof.
  revert b. induction rows as [|r rows IH]; intros b Hcase; simpl.
  - destruct Hcase as [Hin|E]; [|exact E]. inversion Hin.
  - apply IH. destruct Hcase as [Hin|E].
    + apply elem_of_cons in Hin as [->|Hin]; [right|left; assumption].
      apply store_blank_row. left. reflexivity.
    + right. apply store_blank_row. right. assumption.
Qed.

Lemma clear_row_text (s : State) (i : Z) :
  0 <= i < Pages -> row_text (_clear s) i = [].
Proof.
  intros Hi. unfold row_text, row_index, _clear. cbn [_row _filledRows _buffer].
  replace (0 - 0 + i) with i by lia.
  rewrite (i8_small i) by lia. destruct (Z.ltb_spec i 0); [lia|].
  apply clear_loop_blank_rows. left. apply elem_of_seqZ. lia.
Qed.

End WithLcd.

(** *** On the 128x64 display with glyphs 3 pixels wide *)

Import Boards.


End DrawFacts.

(** * More of the code *)

(** ** The debouncer and the debounced pin *)

Module DebouncerMore.
Import Debouncer DebouncedPin DebouncerFacts.

Section WithConfig.
Context `{Config}.

Hypothesis widths : 0 < int_bits <= long_bits.

(** X1.  The hook is called once for each call that changes what
    [value()] returns, and never otherwise. *)
Theorem hook_calls_count_value_changes (cs : list Call) (s : State) :
  snd (run cs s) = value_changes cs s.
Proof.
  revert s. induction cs as [|[v t|t] cs IH]; intros s; simpl; [reflexivity| |].
  - rewrite IH. unfold setValue, value.
    destruct (negb (_holding s) || _); simpl; rewrite Bool.eqb_reflx; reflexivity.
  - specialize (IH (fst (check t s))).
    destruct (check t s) as [s1 fired] eqn:Eck. simpl in *.
    destruct (run cs s1) as [s2 n]. simpl in *. rewrite IH. f_equal.
    unfold check in Eck. destruct (_holding s && _).
    + injection Eck as <- <-. unfold value. simpl.
      destruct (Bool.eqb (_heldValue s) (_value s)); reflexivity.
    + injection Eck as <- <-. unfold value. rewrite Bool.eqb_reflx. reflexivity.
Qed.

Lemma run_checks_idle (cs : list Call) (s : State) :
  Forall is_check cs -> _holding s = false -> run cs s = (s, O).
Proof.
  intros Hcs Hh. induction Hcs as [|[v t|t] cs Hc _ IH]; simpl;
    [reflexivity|contradiction|].
  rewrite check_idle by assumption. rewrite IH. reflexivity.
Qed.

(** X2.  However often and whenever [check()] is called, without a new
    sample in between the hook is called at most once. *)
Theorem checks_call_hook_at_most_once (cs : list Call) (s : State) :
  Forall is_check cs -> (snd (run cs s) <= 1)%nat.
Proof.
  intros Hcs. induction Hcs as [|[v t|t] cs Hc Hcs IH]; simpl; [lia|contradiction|].
  unfold check. destruct (_holding s && _).
  - rewrite run_checks_idle by (try assumption; reflexivity).
    simpl. destruct (negb _); lia.
  - destruct (run cs s) as [s2 n]. simpl in *. lia.
Qed.

(** X3.  A check that comes between [2 ^ (int_bits - 1)] and
    [2 ^ int_bits] milliseconds after the sample sees a negative time and
    leaves the state as it is: with a timeout that is not negative, the
    held value is not committed and the hook is not called. *)
Theorem check_after_int_overflow_does_nothing (t0 t : Z) (s : State) :
  _timestamp s = millis t0 ->
  0 <= timeout_ms ->
  2 ^ (int_bits - 1) <= t - t0 < 2 ^ int_bits ->
  check t s = (s, false).
Proof using widths.
  intros Hts Hto Hd. unfold check.
  assert (E : elapsed t s = t - t0 - 2 ^ int_bits).
  { unfold elapsed, millis, to_signed, to_unsigned in *.
    rewrite Hts, <- Zminus_mod.
    assert (2 ^ int_bits <= 2 ^ long_bits) by (apply Z.pow_le_mono_r; lia).
    pose proof pow_int_bits widths as Hp.
    rewrite (Z.mod_small (t - t0)) by lia.
    replace (t - t0 + 2 ^ (int_bits - 1))
      with (t - t0 - 2 ^ (int_bits - 1) + 1 * 2 ^ int_bits) by lia.
    rewrite Z.mod_add by lia. rewrite Z.mod_small; lia. }
  rewrite E. destruct (Z.leb_spec timeout_ms (t - t0 - 2 ^ int_bits)); [lia|].
  rewrite andb_false_r. reflexivity.
Qed.

(** X4.  The subtraction of the two [millis()] readings survives the
    wrap of the counter: when the counter has wrapped between the sample
    and the check, so that it reads less at the check than at the sample,
    a check that is due still commits the held value. *)
Theorem check_commits_across_millis_wrap (t0 t : Z) (s : State) :
  _holding s = true -> _timestamp s = millis t0 ->
  0 <= t0 < 2 ^ long_bits -> 2 ^ long_bits <= t ->
  timeout_ms <= t - t0 < 2 ^ (int_bits - 1) ->
  millis t < millis t0 /\
  value (fst (check t s)) = _heldValue s /\
  _holding (fst (check t s)) = false /\
  snd (check t s) = negb (Bool.eqb (_heldValue s) (_value s)).
Proof using widths.
  intros Hh Hts Ht0 Ht Hd. pose proof (pow_int_long widths) as Hlt.
  split.
  - unfold millis, to_unsigned. rewrite (Z.mod_small t0) by lia.
    replace t with (t - 2 ^ long_bits + 1 * 2 ^ long_bits) by lia.
    rewrite Z.mod_add by lia. rewrite Z.mod_small; lia.
  - rewrite (check_due widths t0 t s) by (try assumption; lia).
    simpl. auto.
Qed.

(** X5.  Reading the value the debouncer already has never changes it:
    when the pin reads what [value()] returns, [read()] returns it and
    the hook is not called, whatever was held and whatever the time. *)
Theorem read_of_current_value_keeps_it (raw : bool) (t t' : Z) (s : State) :
  raw = value s ->
  snd (fst (read raw t t' s)) = value s /\ snd (read raw t t' s) = false.
Proof.
  intros ->. unfold read, check, setValue, value.
  destruct (negb (_holding s) || negb (Bool.eqb (_value s) (_heldValue s))) eqn:E; simpl.
  - destruct (timeout_ms <=? _); simpl; rewrite ?Bool.eqb_reflx; auto.
  - apply orb_false_elim in E as [E1 E2].
    apply negb_false_iff in E1, E2. apply Bool.eqb_prop in E2.
    rewrite E1. simpl. destruct (timeout_ms <=? _); simpl; [|auto].
    rewrite <- E2, Bool.eqb_reflx. auto.
Qed.

(** X6.  Polling a pin that changed and holds steady, with a positive
    timeout: the [read()] that first sees the new value returns the old
    one, and so does every later one whose check comes sooner than
    [timeout_ms] after that first sample; a [read()] whose check comes
    [timeout_ms] or more after it (and less than [2 ^ (int_bits - 1)])
    returns the new value and calls the hook if the value changed. *)
Theorem read_follows_steady_pin (raw : bool) (t0 t0' t1 t1' : Z) (s : State) :
  _holding s = false \/ _heldValue s <> raw ->
  0 <= t0' - t0 < timeout_ms -> timeout_ms < 2 ^ (int_bits - 1) ->
  let '(s1, v1, fired1) := read raw t0 t0' s in
  v1 = value s /\ fired1 = false /\
  (0 <= t1' - t0 < timeout_ms ->
   read raw t1 t1' s1 = (s1, value s, false)) /\
  (timeout_ms <= t1' - t0 < 2 ^ (int_bits - 1) ->
   snd (fst (read raw t1 t1' s1)) = raw /\
   snd (read raw t1 t1' s1) = negb (Bool.eqb raw (value s))).
Proof using widths.
  intros Hre Hd0 Hfit. unfold read.
  rewrite (setValue_restart raw t0 s Hre).
  rewrite (check_early widths t0 t0') by (simpl; auto; lia).
  split; [reflexivity|]. split; [reflexivity|]. split.
  - intros Hd1. rewrite setValue_held by reflexivity.
    rewrite (check_early widths t0 t1') by (simpl; auto; lia). reflexivity.
  - intros Hd1. rewrite setValue_held by reflexivity.
    rewrite (check_due widths t0 t1') by (simpl; auto; lia). simpl. auto.
Qed.

(** X7.  With a timeout of 0 or less nothing is debounced: the [read()]
    that first sees a value returns it at once. *)
Theorem read_without_timeout_follows_pin (raw : bool) (t t' : Z) (s : State) :
  _holding s = false \/ _heldValue s <> raw ->
  timeout_ms <= 0 -> 0 <= t' - t < 2 ^ (int_bits - 1) ->
  snd (fst (read raw t t' s)) = raw /\
  snd (read raw t t' s) = negb (Bool.eqb raw (value s)).
Proof using widths.
  intros Hre Hto Hd. unfold read.
  rewrite (setValue_restart raw t s Hre).
  rewrite (check_due widths t t') by (simpl; auto; lia). simpl. auto.
Qed.

End WithConfig.

Lemma checks_call_hook_at_most_once_example :
  (snd (@run avr10 [CallCheck 5; CallCheck 11; CallCheck 12; CallCheck 40000]
          (holding_true 0)) <= 1)%nat.
Proof.
  apply (@checks_call_hook_at_most_once avr10). repeat constructor.
Defined.

Lemma check_after_int_overflow_does_nothing_example :
  @check avr10 40000 (holding_true 0) = (holding_true 0, false).
Proof.
  apply (@check_after_int_overflow_does_nothing avr10 avr10_widths 0 40000).
  - reflexivity.
  - cbn. lia.
  - cbn. lia.
Defined.

Lemma check_commits_across_millis_wrap_example :
  @millis avr10 4294967302 < @millis avr10 4294967291 /\
  value (fst (@check avr10 4294967302 (holding_true 4294967291))) = true /\
  _holding (fst (@check avr10 4294967302 (holding_true 4294967291))) = false /\
  snd (@check avr10 4294967302 (holding_true 4294967291)) = true.
Proof.
  apply (@check_commits_across_millis_wrap avr10 avr10_widths 4294967291 4294967302
           (holding_true 4294967291)).
  - reflexivity.
  - reflexivity.
  - cbn. lia.
  - cbn. lia.
  - cbn. lia.
Defined.

Lemma read_of_current_value_keeps_it_example :
  snd (fst (@read avr10 false 7 7 (holding_true 0))) = false /\
  snd (@read avr10 false 7 7 (holding_true 0)) = false.
Proof.
  apply (@read_of_current_value_keeps_it avr10 false 7 7 (holding_true 0)).
  reflexivity.
Defined.

Lemma read_follows_steady_pin_example :
  let '(s1, v1, fired1) := @read avr10 true 0 0 (@init avr10 false 0) in
  v1 = false /\ fired1 = false /\
  (0 <= 11 - 0 < 10 -> @read avr10 true 11 11 s1 = (s1, false, false)) /\
  (10 <= 11 - 0 < 2 ^ (16 - 1) ->
   snd (fst (@read avr10 true 11 11 s1)) = true /\
   snd (@read avr10 true 11 11 s1) = negb (Bool.eqb true false)).
Proof.
  apply (@read_follows_steady_pin avr10 avr10_widths true 0 0 11 11 (@init avr10 false 0)).
  - left. reflexivity.
  - cbn. lia.
  - cbn. lia.
Defined.

Lemma avr0_widths : 0 < @int_bits avr0 <= @long_bits avr0.
Proof. cbn. lia. Qed.

Lemma read_without_timeout_follows_pin_example :
  snd (fst (@read avr0 true 3 3 (@init avr0 false 0))) = true /\
  snd (@read avr0 true 3 3 (@init avr0 false 0)) = negb (Bool.eqb true false).
Proof.
  apply (@read_without_timeout_follows_pin avr0 avr0_widths true 3 3 (@init avr0 false 0)).
  - left. reflexivity.
  - cbn. lia.
  - cbn. lia.
Defined.

End DebouncerMore.

(** ** The page-display helpers *)

Module Display8More.
Import Display8 Display8Facts.

Lemma cells_sends_run (byte : nat -> Z) (n k : nat) (p c : Z) (rest : list PortCall) :
  cells (Some (p, c)) (sends byte k n ++ rest)
  = run_cells p c byte k n ++ cells (Some (p, c + Z.of_nat n)) rest.
Proof.
  revert k c. induction n as [|n IH]; intros k c.
  - simpl. rewrite Z.add_0_r. reflexivity.
  - change (sends byte k (S n)) with (writePageByte (byte k) :: sends byte (S k) n).
    cbn [app cells run_cells]. rewrite IH.
    replace (c + 1 + Z.of_nat n) with (c + Z.of_nat (S n)) by lia. reflexivity.
Qed.

Lemma last_write_app (xs ys : list (Z * Z * Z)) (p c : Z) :
  last_write (xs ++ ys) p c
  = match last_write ys p c with
    | Some b => Some b
    | None => last_write xs p c
    end.
Proof.
  induction xs as [|[[p' c'] b] xs IH]; simpl.
  - destruct (last_write ys p c); reflexivity.
  - rewrite IH. destruct (last_write ys p c); reflexivity.
Qed.

Ltac split_tests :=
  repeat match goal with
         | |- context [?a =? ?b] => destruct (Z.eqb_spec a b)
         | |- context [?a <=? ?b] => destruct (Z.leb_spec a b)
         end.

Lemma last_write_run_cells (byte : nat -> Z) (n k : nat) (page c p' c' : Z) :
  last_write (run_cells page c byte k n) p' c'
  = if in_run page c (c + Z.of_nat n - 1) p' c'
    then Some (byte (k + Z.to_nat (c' - c))%nat) else None.
Proof.
  unfold in_run. revert k c. induction n as [|n IH]; intros k c.
  - cbn [run_cells last_write]. split_tests; simpl; try reflexivity; exfalso; lia.
  - cbn [run_cells last_write]. rewrite IH.
    replace (c + 1 + Z.of_nat n - 1) with (c + Z.of_nat (S n) - 1) by lia.
    assert (Hlast : c <= c + Z.of_nat (S n) - 1) by lia.
    revert Hlast. generalize (c + Z.of_nat (S n) - 1). intros last Hlast.
    split_tests; simpl; try reflexivity; try (exfalso; lia); try congruence.
    + do 2 f_equal. lia.
    + do 2 f_equal. lia.
Qed.

(** What a transfer of [n] bytes from column [c] of [page] leaves. *)
Lemma cells_transfer (byte : nat -> Z) (n : nat) (page c : Z)
      (cur : option (Z * Z)) (rest : list PortCall) :
  cells cur ((beginWritingPage c page :: sends byte O n ++ [endWritingPage]) ++ rest)
  = run_cells page c byte O n ++ cells None rest.
Proof.
  simpl. rewrite <- app_assoc, cells_sends_run. reflexivity.
Qed.

Lemma shown_transfer (byte : nat -> Z) (n : nat) (page c p' c' : Z) :
  shown (beginWritingPage c page :: sends byte O n ++ [endWritingPage]) p' c'
  = if in_run page c (c + Z.of_nat n - 1) p' c'
    then Some (byte (Z.to_nat (c' - c))) else None.
Proof.
  unfold shown.
  rewrite <- (app_nil_r (beginWritingPage c page :: sends byte O n ++ [endWritingPage])).
  rewrite cells_transfer. simpl. rewrite app_nil_r.
  apply last_write_run_cells.
Qed.

(** X8.  With columns that are [uint8_t] values and [end_col < 255],
    [fillPage] leaves [data[k]] in column [start_col + k] of the page for
    every column up to [end_col], [clearPage] leaves the filler in each of
    them, and neither writes any other cell. *)
Theorem page_fill_writes_exactly_its_columns
    (fuel : nat) (start_col end_col page filler : Z) (data : nat -> Z) :
  0 <= start_col <= 255 -> 0 <= end_col < 255 -> (256 < fuel)%nat ->
  exists out_fill out_clear,
    fillPage fuel start_col end_col page data = Some out_fill /\
    clearPage fuel start_col end_col page filler = Some out_clear /\
    forall p c,
      shown out_fill p c
      = (if in_run page start_col end_col p c
         then Some (data (Z.to_nat (c - start_col))) else None) /\
      shown out_clear p c
      = (if in_run page start_col end_col p c then Some filler else None).
Proof.
  intros Hs He Hfuel. eexists. eexists.
  split; [apply fillPage_done; lia|]. split; [apply clearPage_done; lia|].
  intros p c. rewrite !shown_transfer.
  replace (start_col + Z.of_nat (Z.to_nat (end_col + 1 - start_col)) - 1)
    with (Z.max end_col (start_col - 1)) by lia.
  unfold in_run.
  destruct (Z.eqb_spec p page), (Z.leb_spec start_col c), (Z.leb_spec c end_col),
           (Z.leb_spec c (Z.max end_col (start_col - 1))); simpl; try lia; auto.
Qed.

Lemma page_loop_done (n rounds fuel : nat) (start_col end_col mask page end_page : Z) :
  0 <= start_col -> end_col < 255 -> (256 < fuel)%nat ->
  0 <= page -> end_page < 255 ->
  n = Z.to_nat (end_page + 1 - page) -> (n < rounds)%nat ->
  page_loop rounds fuel start_col end_col mask page end_page
  = Some (flat_map (clear_transfer start_col end_col mask)
                   (seqZ page (end_page + 1 - page))).
Proof.
  intros Hsc Hec Hfuel. revert rounds page.
  induction n as [|n IH]; intros rounds page Hp Hep Hn Hr.
  - destruct rounds as [|rounds]; [lia|]. simpl.
    destruct (Z.leb_spec page end_page); [lia|].
    rewrite seqZ_nil by lia. reflexivity.
  - destruct rounds as [|rounds]; [lia|]. simpl.
    destruct (Z.leb_spec page end_page); [|lia].
    rewrite clearPage_done by lia.
    rewrite (ConsoleFacts.u8_small (page + 1)) by lia.
    rewrite (IH rounds (page + 1)) by lia. simpl.
    rewrite (seqZ_cons page) by lia. simpl.
    replace (Z.succ page) with (page + 1) by lia.
    replace (Z.pred (end_page + 1 - page)) with (end_page + 1 - (page + 1)) by lia.
    reflexivity.
Qed.

Lemma shown_transfers (start_col end_col mask : Z) (pages : list Z) (p c : Z) :
  shown (flat_map (clear_transfer start_col end_col mask) pages) p c
  = if existsb (Z.eqb p) pages && (start_col <=? c) && (c <=? end_col)
    then Some mask else None.
Proof.
  unfold shown. induction pages as [|page pages IH]; [reflexivity|].
  cbn [flat_map existsb]. unfold clear_transfer at 1.
  rewrite cells_transfer, last_write_app, IH, last_write_run_cells.
  unfold in_run.
  replace (start_col + Z.of_nat (Z.to_nat (end_col + 1 - start_col)) - 1)
    with (Z.max end_col (start_col - 1)) by lia.
  destruct (existsb (Z.eqb p) pages), (Z.eqb_spec p page), (Z.leb_spec start_col c),
           (Z.leb_spec c end_col), (Z.leb_spec c (Z.max end_col (start_col - 1)));
    simpl; try reflexivity; exfalso; lia.
Qed.

Lemma existsb_seqZ (p first len : Z) :
  existsb (Z.eqb p) (seqZ first len) = (first <=? p) && (p <? first + len).
Proof.
  apply Bool.eq_iff_eq_true.
  rewrite existsb_exists, andb_true_iff, Z.leb_le, Z.ltb_lt. split.
  - intros (x & Hin & Hx). apply Z.eqb_eq in Hx as <-.
    apply list_elem_of_In, elem_of_seqZ in Hin. lia.
  - intros Hp. exists p. split; [|apply Z.eqb_refl].
    apply list_elem_of_In, elem_of_seqZ. lia.
Qed.

(** X9.  With columns and pages that are [uint8_t] values, [end_col < 255]
    and [end_page < 255], [clear] returns and leaves the mask in every
    cell of the rectangle from ([start_col], [start_page]) to ([end_col],
    [end_page]) and writes no cell outside it. *)
Theorem clear_fills_exactly_its_rectangle
    (fuel : nat) (start_col start_page end_col end_page mask : Z) :
  0 <= start_col <= 255 -> 0 <= end_col < 255 ->
  0 <= start_page <= 255 -> 0 <= end_page < 255 -> (256 < fuel)%nat ->
  exists out,
    clear fuel start_col start_page end_col end_page mask = Some out /\
    forall p c,
      shown out p c
      = if in_rect start_col start_page end_col end_page p c then Some mask else None.
Proof.
  intros Hsc Hec Hsp Hep Hfuel. eexists. split.
  - unfold clear.
    apply (page_loop_done (Z.to_nat (end_page + 1 - start_page))); lia.
  - intros p c. rewrite shown_transfers, existsb_seqZ. unfold in_rect.
    destruct (Z.leb_spec start_page p), (Z.ltb_spec p (start_page + (end_page + 1 - start_page))),
             (Z.leb_spec p end_page); simpl; try reflexivity; exfalso; lia.
Qed.

Lemma page_loop_255 (rounds fuel : nat) (start_col end_col mask page : Z) :
  0 <= page <= 255 ->
  page_loop rounds fuel start_col end_col mask page 255 = None.
Proof.
  revert page. induction rounds as [|rounds IH]; intros page Hp; simpl; [reflexivity|].
  destruct (Z.leb_spec page 255); [|lia].
  destruct (clearPage fuel start_col end_col page mask); simpl; [|reflexivity].
  rewrite IH; [reflexivity|].
  unfold u8. pose proof (Z.mod_pos_bound (page + 1) 256). lia.
Qed.

(** X10.  [clear] never returns when [end_page = 255], and never returns
    when [end_col = 255] and the rectangle has a page: the counter of one
    of its two loops wraps from 255 to 0 with the test still true. *)
Theorem clear_never_returns_at_255
    (fuel : nat) (start_col start_page end_col end_page mask : Z) :
  0 <= start_col <= 255 -> 0 <= start_page <= 255 ->
  end_page = 255 \/ (start_page <= end_page /\ end_col = 255) ->
  clear fuel start_col start_page end_col end_page mask = None.
Proof.
  intros Hsc Hsp [->|[Hle ->]]; unfold clear.
  - apply page_loop_255. assumption.
  - destruct fuel as [|fuel]; [reflexivity|]. simpl.
    destruct (Z.leb_spec start_page end_page); [|lia].
    unfold clearPage. rewrite column_loop_255 by assumption. reflexivity.
Qed.

Lemma page_fill_writes_exactly_its_columns_example :
  exists out_fill out_clear,
    fillPage 300 3 5 2 (fun k => Z.of_nat k + 7) = Some out_fill /\
    clearPage 300 3 5 2 9 = Some out_clear /\
    forall p c,
      shown out_fill p c
      = (if in_run 2 3 5 p c then Some (Z.of_nat (Z.to_nat (c - 3)) + 7) else None) /\
      shown out_clear p c = (if in_run 2 3 5 p c then Some 9 else None).
Proof.
  apply (page_fill_writes_exactly_its_columns 300 3 5 2 9 (fun k => Z.of_nat k + 7)); lia.
Defined.

Lemma clear_fills_exactly_its_rectangle_example :
  exists out,
    clear 300 10 1 20 3 255 = Some out /\
    forall p c, shown out p c = if in_rect 10 1 20 3 p c then Some 255 else None.
Proof.
  apply (clear_fills_exactly_its_rectangle 300 10 1 20 3 255); lia.
Defined.

Lemma clear_never_returns_at_255_example :
  clear 300 0 0 255 7 0 = None.
Proof.
  apply (clear_never_returns_at_255 300 0 0 255 7 0); lia.
Defined.

End Display8More.

(** ** The console *)

Module ConsoleMore.
Import Display8 Display8Facts Display8More Console ConsoleFacts ScrollFacts DrawFacts.

Section WithLcd.
Context `{Lcd} `{Font}.

Hypothesis Cols_range : 4 <= Cols <= 255.
Hypothesis Pages_range : 0 < Pages <= 128.

(** What placing a character does to the texts of the rows. *)
Lemma put_texts (ch width : Z) (s : State) :
  wf s -> _col s < MaxCols -> ch <> 0 ->
  (Z.to_nat (_col s) <= length (c_str (row_at (_buffer s) (_row s))))%nat ->
  c_str (row_at (_buffer (put ch width s)) (_row s))
  = take (Z.to_nat (_col s)) (c_str (row_at (_buffer s) (_row s))) ++ [ch] /\
  forall j, 0 <= j -> j <> _row s ->
    row_at (_buffer (put ch width s)) j = row_at (_buffer s) j.
Proof.
  intros Hwf Hlt Hch Hcol.
  pose proof Hwf as (Hlen & Hrows & Hr & Hcr & Hfr).
  pose proof (MaxCols_range Cols_range) as HM.
  destruct (wf_row Pages_range s (_row s) Hwf Hr) as (row & _ & Erow & Hl & _).
  unfold put. cbn [_buffer]. rewrite (u8_small (_col s + 1)) by lia. split.
  - rewrite !row_at_store_same by (rewrite ?store_length; lia).
    rewrite Erow in *.
    replace (Z.to_nat (_col s + 1)) with (S (Z.to_nat (_col s))) by lia.
    apply c_str_put; [assumption|assumption|lia].
  - intros j Hj Hne. rewrite !row_at_store_other by lia. reflexivity.
Qed.

(** The counters after one [_write]. *)
Lemma write_counters (ch : Z) (s : State) :
  wf s ->
  _row (write ch s) = (_row s + Z.of_nat (snd (_write ch s))) mod Pages /\
  _filledRows (write ch s)
  = Z.min (_filledRows s + Z.of_nat (snd (_write ch s))) (Pages - 1).
Proof.
  intros Hwf. pose proof Hwf as (_ & _ & Hr & _ & Hf).
  pose proof (lf_fields Pages_range s ltac:(lia) ltac:(lia)) as (_ & _ & Er & Ef & _).
  assert (Hsame : _row s = (_row s + 0) mod Pages /\
                  _filledRows s = Z.min (_filledRows s + 0) (Pages - 1)).
  { rewrite Z.add_0_r, Z.mod_small by lia. lia. }
  unfold write, _write.
  destruct (32 <=? ch).
  - destruct (_ || _); cbn [fst snd set_dirty put _row _filledRows];
      [rewrite Er, Ef; auto|exact Hsame].
  - destruct (ch =? 10); [|destruct (ch =? 13)];
      cbn [fst snd set_dirty cr _row _filledRows];
      [rewrite Er, Ef; auto|exact Hsame|exact Hsame].
Qed.

Lemma write_all_moves_counters_aux (chs : list Z) (s : State) :
  wf s ->
  _row (fst (write_all chs s))
  = (_row s + Z.of_nat (snd (write_all chs s))) mod Pages /\
  _filledRows (fst (write_all chs s))
  = Z.min (_filledRows s + Z.of_nat (snd (write_all chs s))) (Pages - 1).
Proof.
  revert s. induction chs as [|ch chs IH]; intros s Hwf; cbn zeta.
  - pose proof Hwf as (_ & _ & Hr & _ & Hf). simpl.
    rewrite Z.add_0_r, Z.mod_small by lia. lia.
  - destruct (write_counters ch s Hwf) as [Er Ef].
    pose proof (write_wf Cols_range Pages_range ch s Hwf) as Hwf1.
    specialize (IH (write ch s) Hwf1). cbn zeta in IH.
    unfold write in *. simpl. destruct (_write ch s) as [s1 n1]. simpl in *.
    destruct (write_all chs s1) as [s2 n2]. simpl in *.
    destruct IH as [IHr IHf]. rewrite IHr, IHf, Er, Ef. split.
    + rewrite Zplus_mod_idemp_l. f_equal. lia.
    + lia.
Qed.

(** X11.  After any characters written to a well-formed console, with
    [n] line feeds made on the way, the row index has moved on by [n]
    modulo [Pages] and the count of filled rows has grown by [n] up to
    [Pages - 1], where it stays; from the initial console they are
    [n mod Pages] and [min n (Pages - 1)]. *)
Theorem write_all_moves_counters (chs : list Z) (s : State) :
  wf s ->
  let n := Z.of_nat (snd (write_all chs s)) in
  let m := Z.of_nat (snd (write_all chs init)) in
  _row (fst (write_all chs s)) = (_row s + n) mod Pages /\
  _filledRows (fst (write_all chs s)) = Z.min (_filledRows s + n) (Pages - 1) /\
  _row (fst (write_all chs init)) = m mod Pages /\
  _filledRows (fst (write_all chs init)) = Z.min m (Pages - 1).
Proof.
  intros Hwf n m.
  destruct (write_all_moves_counters_aux chs s Hwf) as [Hr Hf].
  destruct (write_all_moves_counters_aux chs init (init_wf Cols_range Pages_range))
    as [Hr0 Hf0].
  auto.
Qed.

Lemma write_all_wf (chs : list Z) (s : State) : wf s -> wf (fst (write_all chs s)).
Proof.
  revert s. induction chs as [|ch chs IH]; intros s Hwf; simpl; [assumption|].
  pose proof (write_wf Cols_range Pages_range ch s Hwf) as Hwf1.
  unfold write in Hwf1. destruct (_write ch s) as [s1 n1]. simpl in *.
  specialize (IH s1 Hwf1). destruct (write_all chs s1). simpl in *. assumption.
Qed.

Lemma sim_clear (s : State) : Scrollback.sim (_clear s) Scrollback.init.
Proof.
  assert (Hblank : forall j, 0 <= j < Pages -> c_str (row_at (_buffer (_clear s)) j) = []).
  { intros j Hj. unfold _clear. cbn [_buffer].
    apply clear_loop_blank_rows. left. apply elem_of_seqZ. lia. }
  unfold Scrollback.sim, Scrollback.init. cbn [_clear _col _rowWidth _filledRows _row
    Scrollback.col Scrollback.rowWidth Scrollback.rows length].
  split; [reflexivity|]. split; [reflexivity|]. split; [lia|]. split; [|split].
  - intros k Hk. replace k with 0 by lia. rewrite Z.sub_0_r, Z.mod_0_l by lia.
    rewrite Hblank by lia. reflexivity.
  - intros _. split; [reflexivity|]. intros j Hj. apply Hblank. lia.
  - lia.
Qed.

(** X12.  [clear()] makes the console a new one for all that follows:
    the characters written after it give the same texts on the display
    rows, the same cursor and the same number of line feeds as they give
    on the initial console, whatever the console held before. *)
Theorem clear_starts_afresh (chs : list Z) (s : State) :
  wf s ->
  let s1 := fst (write_all chs (_clear s)) in
  let s2 := fst (write_all chs init) in
  map (row_text s1) (seqZ 0 Pages) = map (row_text s2) (seqZ 0 Pages) /\
  snd (write_all chs (_clear s)) = snd (write_all chs init) /\
  _row s1 = _row s2 /\ _col s1 = _col s2 /\
  _rowWidth s1 = _rowWidth s2 /\ _filledRows s1 = _filledRows s2.
Proof.
  intros Hwf s1 s2.
  pose proof (clear_wf Cols_range Pages_range s Hwf) as Hwfc.
  pose proof (init_wf Cols_range Pages_range) as Hwfi.
  pose proof (sim_write_all Cols_range Pages_range chs (_clear s) Scrollback.init
                Hwfc (sim_clear s)) as (Hwf1 & Hsim1 & Hlen1).
  pose proof (sim_write_all Cols_range Pages_range chs init Scrollback.init
                Hwfi (sim_init Pages_range)) as (Hwf2 & Hsim2 & Hlen2).
  fold s1 in Hwf1, Hsim1. fold s2 in Hwf2, Hsim2.
  assert (Hn : snd (write_all chs (_clear s)) = snd (write_all chs init)) by lia.
  pose proof (write_all_moves_counters_aux chs (_clear s) Hwfc) as [Hr1 Hf1].
  pose proof (write_all_moves_counters_aux chs init Hwfi) as [Hr2 Hf2].
  fold s1 in Hr1, Hf1. fold s2 in Hr2, Hf2.
  split; [|split; [exact Hn|]].
  - rewrite (sim_visible Pages_range s1 _ Hwf1 Hsim1).
    rewrite (sim_visible Pages_range s2 _ Hwf2 Hsim2). reflexivity.
  - destruct Hsim1 as (Hc1 & Hw1 & _), Hsim2 as (Hc2 & Hw2 & _).
    rewrite Hr1, Hr2, Hf1, Hf2, Hn, <- Hc1, <- Hc2, <- Hw1, <- Hw2.
    cbn [_clear init _row _filledRows]. auto.
Qed.




(** X15.  After a carriage return the next printable character replaces
    the text of the row: the row it is placed on holds that character
    alone, whatever the row held before. *)
Theorem char_after_cr_replaces_row (ch : Z) (s : State) :
  wf s -> 32 <= ch ->
  let s' := write ch (write 13 s) in
  c_str (row_at (_buffer s') (_row s')) = [ch] /\ _col s' = 1.
Proof.
  intros Hwf Hch s'.
  pose proof (MaxCols_range Cols_range) as HM.
  assert (E13 : write 13 s = set_dirty true (cr s)) by reflexivity.
  set (s1 := write 13 s) in *.
  assert (Hwf1 : wf s1) by (rewrite E13; apply wf_set_dirty; apply cr_wf; assumption).
  assert (Hc1 : _col s1 = 0) by (rewrite E13; reflexivity).
  set (s0 := if (MaxCols <=? _col s1) || (Cols <=? _rowWidth s1 + u8 (dataForCharacter ch))
             then _lf s1 else s1).
  assert (Hs0 : wf s0 /\ _col s0 = 0).
  { unfold s0. destruct (_ || _).
    - split; [apply (lf_wf Cols_range Pages_range), Hwf1|reflexivity].
    - auto. }
  destruct Hs0 as [Hwf0 Hc0].
  assert (Es' : s' = set_dirty true (put ch (u8 (dataForCharacter ch)) s0)).
  { unfold s', write, _write, s0. destruct (Z.leb_spec 32 ch); [|lia].
    destruct (_ || _); reflexivity. }
  rewrite Es'. cbn [set_dirty _buffer _row _col]. split.
  - change (_row (put ch (u8 (dataForCharacter ch)) s0)) with (_row s0).
    destruct (put_texts ch (u8 (dataForCharacter ch)) s0) as [E _];
      [assumption|lia|lia|rewrite Hc0; simpl; lia|].
    rewrite E, Hc0. reflexivity.
  - unfold put. cbn [_col]. rewrite Hc0. reflexivity.
Qed.

(** X16.  [write] changes no row of the buffer but the current one and
    the one after it, and none but the current one when it makes no line
    feed. *)
Theorem write_leaves_other_rows (ch j : Z) (s : State) :
  wf s -> 0 <= j < Pages -> j <> _row s ->
  j <> (_row s + 1) mod Pages \/ snd (_write ch s) = O ->
  row_at (_buffer (write ch s)) j = row_at (_buffer s) j.
Proof.
  intros Hwf Hj Hcur Hnext. pose proof Hwf as (_ & _ & Hr & _ & Hf).
  pose proof (lf_fields Pages_range s ltac:(lia) ltac:(lia)) as (_ & _ & Er & _ & Eb & _).
  pose proof (Z.mod_pos_bound (_row s + 1) Pages (Pages_pos Pages_range)) as Hm.
  assert (Hlf : j <> (_row s + 1) mod Pages ->
                row_at (_buffer (_lf s)) j = row_at (_buffer s) j).
  { intros Hne. rewrite Eb. apply row_at_store_other. lia. }
  unfold write, _write in *.
  destruct (32 <=? ch).
  - destruct (_ || _); cbn [fst snd set_dirty _buffer] in *.
    + destruct Hnext as [Hne|Hn]; [|discriminate].
      unfold put. cbn [_buffer]. rewrite !row_at_store_other by (rewrite Er; lia).
      apply Hlf. assumption.
    + unfold put. cbn [_buffer]. rewrite !row_at_store_other by lia. reflexivity.
  - destruct (ch =? 10); [|destruct (ch =? 13)]; cbn [fst snd set_dirty _buffer cr] in *;
      [|reflexivity..].
    destruct Hnext as [Hne|Hn]; [|discriminate]. apply Hlf. assumption.
Qed.

(** X17.  In a well-formed console every store that [_write] makes lands
    inside [_buffer]: the row is below [Pages] and the column is at most
    [MaxCols], the last of the [MaxCols + 1] characters of a row; and the
    buffer after [_write] is the buffer before it with those stores made
    in order. *)
Theorem write_stores_stay_in_buffer (ch : Z) (s : State) :
  wf s ->
  Forall in_buffer (write_stores ch s) /\
  _buffer (write ch s)
  = foldl (fun b st => store b (fst (fst st)) (snd (fst st)) (snd st))
          (_buffer s) (write_stores ch s).
Proof.
  intros Hwf. pose proof (MaxCols_range Cols_range) as HM.
  assert (Hlf : Forall in_buffer (lf_stores s)).
  { pose proof (lf_wf Cols_range Pages_range s Hwf) as (_ & _ & Hr & _).
    unfold lf_stores. constructor; [|constructor].
    unfold in_buffer. cbn [fst snd]. lia. }
  assert (Hput : forall s0, wf s0 -> _col s0 < MaxCols -> Forall in_buffer (put_stores ch s0)).
  { intros s0 (_ & _ & Hr & Hc & _) Hlt. unfold put_stores, in_buffer.
    constructor; [|constructor; [|constructor]]; cbn [fst snd];
      rewrite ?u8_small by lia; lia. }
  unfold write, _write, write_stores.
  destruct (32 <=? ch).
  - destruct (Z.leb_spec MaxCols (_col s)); cbn [orb].
    + split; [|reflexivity]. apply Forall_app. split; [assumption|].
      apply Hput; [apply (lf_wf Cols_range Pages_range), Hwf|]. unfold _lf. simpl. lia.
    + destruct (Cols <=? _).
      * split; [|reflexivity]. apply Forall_app. split; [assumption|].
        apply Hput; [apply (lf_wf Cols_range Pages_range), Hwf|]. unfold _lf. simpl. lia.
      * split; [|reflexivity]. apply Hput; assumption.
  - destruct (ch =? 10); [|destruct (ch =? 13)]; split;
      try reflexivity; try assumption; constructor.
Qed.

(** X18.  [draw()] redraws only what was written since the last
    [draw()]: once a [_draw] has returned, a second one makes no port
    call and leaves the console as it is, with any number of rounds. *)
Theorem draw_twice_draws_once (fuel fuel' : nat) (s s' : State) (out : list PortCall) :
  _draw fuel s = Some (s', out) -> _draw fuel' s' = Some (s', []).
Proof.
  intros Hd. apply draw_state in Hd as ->. reflexivity.
Qed.

(** X20.  [clear()] of the display with its default arguments returns
    and leaves a blank byte in every cell of the display, from column 0
    to [Cols - 1] on the pages 0 to [Pages - 1], and writes no cell
    outside it. *)
Theorem clear_display_blanks_exactly_the_display (fuel : nat) :
  (256 < fuel)%nat ->
  exists out,
    clear_display fuel = Some out /\
    forall p c,
      shown out p c = if in_rect 0 0 (Cols - 1) (Pages - 1) p c then Some 0 else None.
Proof.
  intros Hfuel. unfold clear_display, clear.
  rewrite !u8_small by lia. eexists. split.
  - apply (page_loop_done (Z.to_nat (Pages - 1 + 1 - 0))); lia.
  - intros p c. rewrite shown_transfers, existsb_seqZ. unfold in_rect.
    destruct (Z.leb_spec 0 p), (Z.ltb_spec p (0 + (Pages - 1 + 1 - 0))),
             (Z.leb_spec p (Pages - 1)); simpl; try reflexivity; exfalso; lia.
Qed.

End WithLcd.

(** *** On the displays of [Boards] *)

Import Boards.

Ltac lcd128x64_side :=
  first [exact lcd128x64_Cols | exact lcd128x64_Pages
        | apply init_wf; [exact lcd128x64_Cols | exact lcd128x64_Pages]].

Lemma write_all_moves_counters_example :
  let n := Z.of_nat (snd (@write_all lcd128x64 font3 ten_lines (@init lcd128x64))) in
  _row (fst (@write_all lcd128x64 font3 ten_lines (@init lcd128x64))) = (0 + n) mod 8 /\
  _filledRows (fst (@write_all lcd128x64 font3 ten_lines (@init lcd128x64)))
  = Z.min (0 + n) (8 - 1) /\
  _row (fst (@write_all lcd128x64 font3 ten_lines (@init lcd128x64))) = n mod 8 /\
  _filledRows (fst (@write_all lcd128x64 font3 ten_lines (@init lcd128x64)))
  = Z.min n (8 - 1).
Proof.
  apply (@write_all_moves_counters lcd128x64 font3 lcd128x64_Cols lcd128x64_Pages
           ten_lines (@init lcd128x64)).
  lcd128x64_side.
Defined.

Lemma clear_starts_afresh_example :
  let old := fst (@write_all lcd128x64 font3 ten_lines (@init lcd128x64)) in
  let s1 := fst (@write_all lcd128x64 font3 [72; 105] (@_clear lcd128x64 old)) in
  let s2 := fst (@write_all lcd128x64 font3 [72; 105] (@init lcd128x64)) in
  map (@row_text lcd128x64 s1) (seqZ 0 8) = map (@row_text lcd128x64 s2) (seqZ 0 8) /\
  snd (@write_all lcd128x64 font3 [72; 105] (@_clear lcd128x64 old))
  = snd (@write_all lcd128x64 font3 [72; 105] (@init lcd128x64)) /\
  _row s1 = _row s2 /\ _col s1 = _col s2 /\
  _rowWidth s1 = _rowWidth s2 /\ _filledRows s1 = _filledRows s2.
Proof.
  apply (@clear_starts_afresh lcd128x64 font3 lcd128x64_Cols lcd128x64_Pages [72; 105]
           (fst (@write_all lcd128x64 font3 ten_lines (@init lcd128x64)))).
  apply (@write_all_wf lcd128x64 font3 lcd128x64_Cols lcd128x64_Pages).
  lcd128x64_side.
Defined.



Lemma char_after_cr_replaces_row_example :
  let s := fst (@write_all lcd128x64 font3 [72; 101; 108; 108; 111] (@init lcd128x64)) in
  let s' := @write lcd128x64 font3 74 (@write lcd128x64 font3 13 s) in
  c_str (row_at (_buffer s') (_row s')) = [74] /\ _col s' = 1.
Proof.
  apply (@char_after_cr_replaces_row lcd128x64 font3 lcd128x64_Cols lcd128x64_Pages 74).
  - apply (@write_all_wf lcd128x64 font3 lcd128x64_Cols lcd128x64_Pages).
    lcd128x64_side.
  - lia.
Defined.

Lemma write_leaves_other_rows_example :
  let s := fst (@write_all lcd128x64 font3 ten_lines (@init lcd128x64)) in
  row_at (_buffer (@write lcd128x64 font3 10 s)) 5 = row_at (_buffer s) 5.
Proof.
  apply (@write_leaves_other_rows lcd128x64 font3 lcd128x64_Pages 10 5).
  - apply (@write_all_wf lcd128x64 font3 lcd128x64_Cols lcd128x64_Pages).
    lcd128x64_side.
  - cbn. lia.
  - vm_compute. discriminate.
  - left. vm_compute. discriminate.
Defined.

Lemma write_stores_stay_in_buffer_example :
  let s := fst (@write_all lcd128x64 font3 (replicate 32 65) (@init lcd128x64)) in
  Forall (@in_buffer lcd128x64) (@write_stores lcd128x64 font3 66 s) /\
  _buffer (@write lcd128x64 font3 66 s)
  = foldl (fun b st => store b (fst (fst st)) (snd (fst st)) (snd st))
          (_buffer s) (@write_stores lcd128x64 font3 66 s).
Proof.
  apply (@write_stores_stay_in_buffer lcd128x64 font3 lcd128x64_Cols lcd128x64_Pages 66).
  apply (@write_all_wf lcd128x64 font3 lcd128x64_Cols lcd128x64_Pages).
  lcd128x64_side.
Defined.

Lemma draw_twice_draws_once_example :
  @_draw lcd128x64 7
    (set_dirty false (@write lcd128x64 font3 65 (@init lcd128x64)))
  = Some (set_dirty false (@write lcd128x64 font3 65 (@init lcd128x64)), []).
Proof.
  eapply (@draw_twice_draws_once lcd128x64 300 7
            (@write lcd128x64 font3 65 (@init lcd128x64))).
  vm_compute. reflexivity.
Defined.

Lemma clear_display_blanks_exactly_the_display_example :
  exists out,
    @clear_display lcd128x64 300 = Some out /\
    forall p c,
      shown out p c = if in_rect 0 0 (128 - 1) (8 - 1) p c then Some 0 else None.
Proof.
  apply (@clear_display_blanks_exactly_the_display lcd128x64
           lcd128x64_Cols lcd128x64_Pages 300).
  lia.
Defined.

End ConsoleMore.

(** ** Drawing on an lcd that fills as the description says *)

Module DrawBlank.
Import Display8 Display8Facts Display8More Console ConsoleFacts DrawFacts.

Lemma cells_app_begin (xs ys : list PortCall) (cur : option (Z * Z)) (c p : Z) :
  cells cur (xs ++ beginWritingPage c p :: ys)
  = cells cur xs ++ cells (Some (p, c)) ys.
Proof.
  revert cur. induction xs as [|[c' p'|b|] xs IH]; intros cur; simpl.
  - reflexivity.
  - apply IH.
  - destruct cur as [[p0 c0]|]; [simpl; f_equal|]; apply IH.
  - apply IH.
Qed.

Lemma run_cells_page (byte : nat -> Z) (n k : nat) (page c : Z) :
  Forall (fun cell => fst (fst cell) = page) (run_cells page c byte k n).
Proof.
  revert k c. induction n as [|n IH]; intros k c; simpl; constructor; auto.
Qed.

Lemma last_write_other_pages (ws : list (Z * Z * Z)) (p c : Z) :
  Forall (fun cell => fst (fst cell) <> p) ws -> last_write ws p c = None.
Proof.
  induction 1 as [|[[p' c'] b] ws Hp _ IH]; simpl; [reflexivity|].
  rewrite IH. simpl in Hp. destruct (Z.eqb_spec p' p); [contradiction|reflexivity].
Qed.

(** The bytes of a transfer that names one page land on that page. *)
Lemma cells_bytes_page (bytes : list PortCall) (p c : Z) :
  Forall (fun call => exists b, call = writePageByte b) bytes ->
  Forall (fun cell => fst (fst cell) = p)
         (cells (Some (p, c)) (bytes ++ [endWritingPage])).
Proof.
  intros Hb. revert c. induction Hb as [|call bytes [b ->] _ IH]; intros c; simpl.
  - constructor.
  - constructor; [reflexivity|apply IH].
Qed.

Section WithLcd.
Context `{Lcd} `{Font}.

Hypothesis Cols_range : 4 <= Cols <= 255.
Hypothesis Pages_range : 0 < Pages <= 128.

(** The lcd does what the description says of it. *)
Hypothesis lcd_fills : fills_rest.
Hypothesis lcd_draws : draws_on_its_page.
Hypothesis empty_text : forall page, fst (drawText 0 page []) = 0.

Lemma draw_page_out (fuel : nat) (s : State) (i : Z) :
  draw_page fuel s i = Some (page_out s i).
Proof.
  unfold draw_page, page_out.
  destruct (lcd_draws i (row_text s i)) as [Hw _].
  destruct (drawText 0 i (row_text s i)) as [w text_out]. simpl in *.
  rewrite (u8_small w) by lia. rewrite lcd_fills. reflexivity.
Qed.

Lemma draw_pages_out (fuel : nat) (s : State) (pages : list Z) :
  draw_pages fuel s pages = Some (flat_map (page_out s) pages).
Proof.
  induction pages as [|i pages IH]; simpl; [reflexivity|].
  rewrite draw_page_out, IH. reflexivity.
Qed.

Lemma draw_out (fuel : nat) (s : State) :
  _dirty s = true ->
  _draw fuel s = Some (set_dirty false s, flat_map (page_out s) (seqZ 0 Pages)).
Proof.
  intros Hd. unfold _draw. rewrite Hd. simpl. rewrite draw_pages_out. reflexivity.
Qed.

Lemma cells_page_out (s : State) (i : Z) (rest : list PortCall) :
  cells None (page_out s i ++ rest)
  = cells None (snd (drawText 0 i (row_text s i)))
    ++ run_cells i (fst (drawText 0 i (row_text s i))) blank O
                 (Z.to_nat (Cols - fst (drawText 0 i (row_text s i))))
    ++ cells None rest.
Proof.
  unfold page_out, fill_blank. rewrite <- app_assoc. cbn [app].
  rewrite cells_app_begin. f_equal.
  rewrite <- app_assoc, cells_sends_run. reflexivity.
Qed.

Lemma cells_pages_app (s : State) (pages : list Z) (rest : list PortCall) :
  cells None (flat_map (page_out s) pages ++ rest)
  = cells None (flat_map (page_out s) pages) ++ cells None rest.
Proof.
  induction pages as [|i pages IH]; [reflexivity|].
  cbn [flat_map]. rewrite <- app_assoc, !cells_page_out, IH, <- !app_assoc.
  reflexivity.
Qed.

Lemma cells_pages_on (s : State) (pages : list Z) :
  Forall (fun cell => fst (fst cell) ∈ pages)
         (cells None (flat_map (page_out s) pages)).
Proof.
  induction pages as [|i pages IH]; [constructor|].
  cbn [flat_map]. rewrite cells_page_out.
  apply Forall_app. split; [|apply Forall_app; split].
  - destruct (lcd_draws i (row_text s i)) as [_ Hon].
    eapply Forall_impl; [|exact Hon]. intros cell ->. apply list_elem_of_here.
  - eapply Forall_impl; [|apply run_cells_page]. intros cell ->. apply list_elem_of_here.
  - eapply Forall_impl; [|exact IH]. intros cell Hin. apply list_elem_of_further, Hin.
Qed.

(** After a [_draw], the columns from the width of the text of a display
    row up to the last one hold blank bytes. *)
Lemma shown_after_text (s : State) (i c : Z) :
  0 <= i < Pages ->
  fst (drawText 0 i (row_text s i)) <= c < Cols ->
  shown (flat_map (page_out s) (seqZ 0 Pages)) i c = Some 0.
Proof.
  intros Hi Hc. destruct (lcd_draws i (row_text s i)) as [Hw _].
  replace Pages with (i + (1 + (Pages - i - 1))) by lia.
  rewrite seqZ_app, (seqZ_app _ 1) by lia.
  change (seqZ (0 + i) 1) with [0 + i]. rewrite Z.add_0_l.
  rewrite !flat_map_app. cbn [flat_map]. rewrite app_nil_r.
  unfold shown. rewrite cells_pages_app, cells_page_out.
  rewrite !last_write_app.
  rewrite (last_write_other_pages (cells None (flat_map _ (seqZ (i + 1) _)))).
  - rewrite last_write_run_cells. unfold in_run.
    destruct (Z.eqb_spec i i); [|contradiction].
    destruct (Z.leb_spec (fst (drawText 0 i (row_text s i))) c); [|lia].
    destruct (Z.leb_spec c (fst (drawText 0 i (row_text s i))
                            + Z.of_nat (Z.to_nat (Cols - fst (drawText 0 i (row_text s i))))
                            - 1)); [|lia].
    reflexivity.
  - eapply Forall_impl; [|apply cells_pages_on].
    intros cell Hin E. cbv beta in Hin. apply elem_of_seqZ in Hin. lia.
Qed.

(** C1.  On an lcd that fills as the description says, and whose
    [drawText] stays on its page, returns a width within the display and
    the width 0 for an empty text: a [_draw] of a dirty console returns,
    and on every display row it leaves a blank byte in every column from
    the width of the text up to [Cols - 1]; and for every console state,
    [_clear] and then [_draw] returns with a blank byte in every column
    of every page. *)
Theorem draw_blanks_rest_of_each_page (s : State) (fuel : nat) :
  (_dirty s = true ->
   exists out,
     _draw fuel s = Some (set_dirty false s, out) /\
     forall i c, 0 <= i < Pages ->
       fst (drawText 0 i (row_text s i)) <= c < Cols ->
       shown out i c = Some 0) /\
  (exists out,
     _draw fuel (_clear s) = Some (set_dirty false (_clear s), out) /\
     forall p c, 0 <= p < Pages -> 0 <= c < Cols -> shown out p c = Some 0).
Proof.
  split.
  - intros Hd. eexists. split; [apply draw_out; assumption|].
    intros i c Hi Hc. apply shown_after_text; assumption.
  - eexists. split; [apply draw_out; reflexivity|].
    intros p c Hp Hc. apply shown_after_text; [assumption|].
    rewrite clear_row_text by assumption. rewrite empty_text. assumption.
Qed.

End WithLcd.

Import Boards.

Lemma lcd128x64_fills : @fills_rest lcd128x64.
Proof. intros fuel col width page. reflexivity. Qed.

Lemma lcd128x64_draws : @draws_on_its_page lcd128x64.
Proof.
  intros page text. cbn [drawText lcd128x64 Cols]. unfold block_text.
  cbn [fst snd cells]. split; [lia|].
  apply cells_bytes_page, Forall_take.
  induction text as [|ch text IH]; [constructor|].
  cbn [flat_map map app]. repeat (constructor; [eexists; reflexivity|]). exact IH.
Qed.

Lemma lcd128x64_empty_text (page : Z) : fst (@drawText lcd128x64 0 page []) = 0.
Proof. reflexivity. Qed.

Lemma draw_blanks_rest_of_each_page_example :
  let s := fst (@write_all lcd128x64 font3 ten_lines (@init lcd128x64)) in
  (exists out,
     @_draw lcd128x64 0 s = Some (set_dirty false s, out) /\
     shown out 0 4 = Some 0 /\ shown out 6 127 = Some 0 /\
     shown out 7 0 = Some 0) /\
  (exists out,
     @_draw lcd128x64 0 (@_clear lcd128x64 s)
     = Some (set_dirty false (@_clear lcd128x64 s), out) /\
     shown out 0 0 = Some 0 /\ shown out 7 127 = Some 0).
Proof.
  intros s.
  destruct (@draw_blanks_rest_of_each_page lcd128x64 lcd128x64_Cols lcd128x64_Pages
              lcd128x64_fills lcd128x64_draws lcd128x64_empty_text s O)
    as [Hdraw (out' & Hclear & Hblank)].
  split.
  - destruct Hdraw as (out & Hout & Hrest); [reflexivity|].
    exists out. split; [exact Hout|].
    repeat split; apply Hrest; vm_compute; intuition congruence.
  - exists out'. split; [exact Hclear|].
    split; apply Hblank; vm_compute; intuition congruence.
Defined.

End DrawBlank.
